(** * Continuum.binary_search (ext/memcache/binary_search.c)

    A shallow embedding of the C extension that looks a hashed key up in the
    sorted continuum of a memcache client, and the properties of the lookup.

    The C function works on three [int] variables ([upper], [lower], [idx])
    and on two [unsigned int] values ([l], [r]).  The data model is LP64:
    [int] has 32 bits, and [RARRAY_LEN] is a [long] of 64 bits, so the length
    of a Ruby array can exceed what an [int] holds.  An [int] is a [Z]; every
    place where the C code stores into an [int] goes through [to_int], the
    two's complement wrap-around.  An [unsigned int] is an [N]; the code only
    compares such values ([==], [>]), it never computes with them.  The
    conversions [NUM2UINT] of ruby.h happen before the first comparison and
    are not part of the search: an entry carries the [unsigned int] that
    [NUM2UINT] makes of its [value], and the query is the [unsigned int] [r]. *)

From Stdlib Require Import ZArith NArith List Lia Bool Sorted RelationClasses.
Import ListNotations.

Local Open Scope Z_scope.

(** ** Machine integers *)

Definition INT_MIN : Z := -2147483648.
Definition INT_MAX : Z := 2147483647.

(** What an [int] holds of a mathematical integer: its reduction modulo
    [2^32] into [INT_MIN .. INT_MAX].  This is the conversion of a [long] to
    an [int], and the result of [int] arithmetic that leaves the range (the C
    standard leaves signed overflow undefined; two's complement machines
    wrap). *)
Definition to_int (z : Z) : Z := (z - INT_MIN) mod 4294967296 + INT_MIN.

(** ** Ruby values seen by the function *)

(** An element of the array: an object that answers [value] with a number,
    and whatever else it carries (the server of the continuum entry), which
    the search never looks at. *)
Record Entry (P : Type) : Type := mkEntry { value : N; payload : P }.

Arguments mkEntry {P} _ _.
Arguments value {P} _.
Arguments payload {P} _.

(** What the call hands back: [INT2FIX] of an [int], or no Ruby value at all
    because [RARRAY_PTR(ary)[idx]] was read outside the array (undefined
    behaviour in C; the embedding stops there and records the index). *)
Inductive outcome : Type :=
| Returned (i : Z)
| OutOfBounds (idx : Z).

(** One pass over the body of the [while]: leave the loop, or go round again
    with new bounds. *)
Inductive step : Type :=
| Exit (o : outcome)
| Loop (lower upper : Z).

(** What the Ruby method of the comment (lines 5 to 23) gives: the integer
    it returns, or the [NoMethodError] of [nil.value] when [ary[idx]] is
    [nil]. *)
Inductive ruby_outcome : Type :=
| Result (i : Z)
| NoMethodError (idx : Z).

(** One pass over the body of its [while]. *)
Inductive ruby_step : Type :=
| Done (o : ruby_outcome)
| Again (lower upper : Z).

(** ** The function *)

Section Search.

Context {P : Type}.

Definition RARRAY_LEN (ary : list (Entry P)) : Z := Z.of_nat (length ary).

Definition RARRAY_PTR (ary : list (Entry P)) (idx : Z) : option (Entry P) :=
  if idx <? 0 then None else nth_error ary (Z.to_nat idx).

(** [idx = (lower + upper) / 2]: the sum is an [int], and [/] on [int]
    truncates towards zero. *)
Definition midpoint (lower upper : Z) : Z := Z.quot (to_int (lower + upper)) 2.

(** Lines 32 to 46, one round. *)
Definition iteration (ary : list (Entry P)) (r : N) (lower upper : Z) : step :=
  if lower <=? upper then
    let idx := midpoint lower upper in
    match RARRAY_PTR ary idx with
    | None => Exit (OutOfBounds idx)
    | Some continuumValue =>
        let l := value continuumValue in
        if (l =? r)%N then Exit (Returned idx)
        else if (r <? l)%N then Loop lower (to_int (idx - 1))
        else Loop (to_int (idx + 1)) upper
    end
  else Exit (Returned upper).

(** The [while] loop, unrolled at most [fuel] times; [None] when the rounds
    are used up before the loop is left. *)
Fixpoint search_loop (fuel : nat) (ary : list (Entry P)) (r : N)
         (lower upper : Z) : option outcome :=
  match fuel with
  | O => None
  | S fuel' =>
      match iteration ary r lower upper with
      | Exit o => Some o
      | Loop lower' upper' => search_loop fuel' ary r lower' upper'
      end
  end.

(** The pairs [(lower, upper)] at which the loop condition is evaluated. *)
Fixpoint bounds_trace (fuel : nat) (ary : list (Entry P)) (r : N)
         (lower upper : Z) : list (Z * Z) :=
  match fuel with
  | O => []
  | S fuel' =>
      (lower, upper) ::
      match iteration ary r lower upper with
      | Exit _ => []
      | Loop lower' upper' => bounds_trace fuel' ary r lower' upper'
      end
  end.

(** The indices at which line 35 reads [RARRAY_PTR(ary)[idx]], in order. *)
Fixpoint probe_trace (fuel : nat) (ary : list (Entry P)) (r : N)
         (lower upper : Z) : list Z :=
  match fuel with
  | O => []
  | S fuel' =>
      if lower <=? upper then
        midpoint lower upper ::
        match iteration ary r lower upper with
        | Exit _ => []
        | Loop lower' upper' => probe_trace fuel' ary r lower' upper'
        end
      else []
  end.

(** Every round at least halves the interval, and an [int] interval has
    fewer than [2^32] points: 33 evaluations of the loop condition always
    suffice ([binary_search_total] below). *)
Definition rounds : nat := 33.

(** [int upper = RARRAY_LEN(ary) - 1]: a [long] stored into an [int]. *)
Definition initial_upper (ary : list (Entry P)) : Z := to_int (RARRAY_LEN ary - 1).

Definition binary_search (ary : list (Entry P)) (number : N) : option outcome :=
  search_loop rounds ary number 0 (initial_upper ary).

Definition bounds (ary : list (Entry P)) (number : N) : list (Z * Z) :=
  bounds_trace rounds ary number 0 (initial_upper ary).

Definition probes (ary : list (Entry P)) (number : N) : list Z :=
  probe_trace rounds ary number 0 (initial_upper ary).

(** ** Vocabulary of the properties *)

(** The longest array on which no sum [lower + upper] leaves the [int]
    range: [2^30] entries. *)
Definition MAX_LEN : Z := 1073741824.

(** The value of the entry at an index, when there is one. *)
Definition value_at (ary : list (Entry P)) (i : Z) : option N :=
  option_map value (RARRAY_PTR ary i).

Definition holds (ary : list (Entry P)) (q : N) (i : Z) : bool :=
  match value_at ary i with
  | Some v => (v =? q)%N
  | None => false
  end.

Definition by_value (a b : Entry P) : Prop := (value a <= value b)%N.

(** Sorted non-decreasing by value. *)
Definition sorted (ary : list (Entry P)) : Prop := Sorted by_value ary.

(** The index of the last entry whose value is strictly less than the
    query, [-1] when there is none; written as a scan of the whole array,
    from the words of the specification. *)
Fixpoint last_below (ary : list (Entry P)) (q : N) (i acc : Z) : Z :=
  match ary with
  | [] => acc
  | e :: rest => last_below rest q (i + 1) (if (value e <? q)%N then i else acc)
  end.

Definition predecessor_index (ary : list (Entry P)) (q : N) : Z :=
  last_below ary q 0 (-1).

(** The first index of a probe path that holds the query. *)
Definition first_match (ary : list (Entry P)) (q : N) (path : list Z) : option Z :=
  find (holds ary q) path.

(** [i] separates the entries below [q] from the entries above it. *)
Definition separates (ary : list (Entry P)) (q : N) (i : Z) : Prop :=
  -1 <= i < RARRAY_LEN ary /\
  (forall j v, j <= i -> value_at ary j = Some v -> (v < q)%N) /\
  (forall j v, i < j -> value_at ary j = Some v -> (q < v)%N).

(** What one round does to the interval [lower .. upper]: it leaves the loop
    with a return value, or it goes on with a strictly shorter interval
    inside the old one. *)
Definition returns_or_shrinks (ary : list (Entry P)) (r : N) (b : Z * Z) : Prop :=
  match iteration ary r (fst b) (snd b) with
  | Exit (Returned _) => True
  | Exit (OutOfBounds _) => False
  | Loop lower' upper' =>
      fst b <= lower' /\ upper' <= snd b /\ upper' - lower' < snd b - fst b
  end.

(** *** Loop invariants *)

(** Bounds the loop can meet on any array: [lower] starts at [0] and only
    ever becomes [idx + 1] for an [idx] that is half of an [int]. *)
Definition plausible (lower upper : Z) : Prop :=
  0 <= lower <= MAX_LEN /\ upper <= INT_MAX.

(** Bounds inside the array. *)
Definition inside_inv (ary : list (Entry P)) (lower upper : Z) : Prop :=
  0 <= lower <= RARRAY_LEN ary /\ -1 <= upper < RARRAY_LEN ary /\
  lower <= upper + 1.

Definition inside_post (ary : list (Entry P)) (o : outcome) : Prop :=
  exists i, o = Returned i /\ -1 <= i <= RARRAY_LEN ary - 1.

(** On a sorted array: everything left of [lower] is below the query,
    everything right of [upper] is above it. *)
Definition sorted_inv (ary : list (Entry P)) (q : N) (lower upper : Z) : Prop :=
  inside_inv ary lower upper /\
  (forall j v, j < lower -> value_at ary j = Some v -> (v < q)%N) /\
  (forall j v, upper < j -> value_at ary j = Some v -> (q < v)%N).

Definition sorted_post (ary : list (Entry P)) (q : N) (o : outcome) : Prop :=
  exists i, o = Returned i /\ (value_at ary i = Some q \/ separates ary q i).

(** With the query below every entry, [lower] stays at [0]. *)
Definition descent_inv (ary : list (Entry P)) (lower upper : Z) : Prop :=
  lower = 0 /\ -1 <= upper < RARRAY_LEN ary.

(** ** The Ruby method the C function replaces (the comment, lines 5 to 23)

    Ruby integers do not overflow: [lower], [upper] and [idx] are plain [Z],
    and [/] on them is the floor division. *)

(** [ary[idx]]: a negative index counts from the end of the array, and an
    index outside of it gives [nil]. *)
Definition ruby_at (ary : list (Entry P)) (idx : Z) : option (Entry P) :=
  let i := if idx <? 0 then RARRAY_LEN ary + idx else idx in
  if i <? 0 then None else nth_error ary (Z.to_nat i).

(** Lines 10 to 21, one round; [comp] is [ary[idx].value <=> value]. *)
Definition ruby_iteration (ary : list (Entry P)) (v : N) (lower upper : Z) : ruby_step :=
  if lower <=? upper then
    let idx := (lower + upper) / 2 in
    match ruby_at ary idx with
    | None => Done (NoMethodError idx)
    | Some e =>
        match (value e ?= v)%N with
        | Eq => Done (Result idx)
        | Gt => Again lower (idx - 1)
        | Lt => Again (idx + 1) upper
        end
    end
  else Done (Result upper).

Fixpoint ruby_loop (fuel : nat) (ary : list (Entry P)) (v : N)
         (lower upper : Z) : option ruby_outcome :=
  match fuel with
  | O => None
  | S fuel' =>
      match ruby_iteration ary v lower upper with
      | Done o => Some o
      | Again lower' upper' => ruby_loop fuel' ary v lower' upper'
      end
  end.

(** Every round takes at least the probed index out of the interval, so
    [ary.size + 1] evaluations of the loop condition suffice
    ([ruby_binary_search_safe] below). *)
Definition ruby_binary_search (ary : list (Entry P)) (v : N) : option ruby_outcome :=
  ruby_loop (S (length ary)) ary v 0 (RARRAY_LEN ary - 1).

End Search.

(** ** Arrays used as examples *)

(** The continuum with the given values, in the given order. *)
Definition ring (vs : list N) : list (Entry unit) := map (fun v => mkEntry v tt) vs.

(** [n] entries, all of value [v]. *)
Definition level (v : N) (n : Z) : list (Entry unit) :=
  repeat (mkEntry v tt) (Z.to_nat n).

(** [2^30 + 1] entries of value [0]: the shortest array on which a sum of
    bounds overflows. *)
Abbreviation long_ring := (level 0%N 1073741825).

(** [2^30] entries of value [0], then one of value [1]. *)
Abbreviation stepped_ring := (level 0%N 1073741824 ++ ring [1%N]).

(** [2^31 + 1] entries of value [1]: the shortest array whose last index is
    no [int]. *)
Abbreviation longer_ring := (level 1%N 2147483649).

(** ** The scenarios of the specification *)

Example scenario_1 : binary_search (ring [10; 20; 30; 40]%N) 30 = Some (Returned 2).
Proof. reflexivity. Qed.

Example scenario_2 : binary_search (ring [10; 20; 30; 40]%N) 25 = Some (Returned 1).
Proof. reflexivity. Qed.

Example scenario_3 : binary_search (ring [10; 20; 30; 40]%N) 5 = Some (Returned (-1)).
Proof. reflexivity. Qed.

Example scenario_4 : binary_search (ring [10; 20; 30; 40]%N) 99 = Some (Returned 3).
Proof. reflexivity. Qed.

Example scenario_5 : binary_search (ring []) 1 = Some (Returned (-1)).
Proof. reflexivity. Qed.

Example scenario_6 : binary_search (ring [5]%N) 5 = Some (Returned 0).
Proof. reflexivity. Qed.

Example scenario_2_bounds : bounds (ring [10; 20; 30; 40]%N) 25 = [(0, 3); (2, 3); (2, 1)].
Proof. reflexivity. Qed.

Example scenario_2_probes : probes (ring [10; 20; 30; 40]%N) 25 = [1; 2].
Proof. reflexivity. Qed.

Example scenario_2_predecessor : predecessor_index (ring [10; 20; 30; 40]%N) 25 = 1.
Proof. reflexivity. Qed.

Example ruby_scenario_2 : ruby_binary_search (ring [10; 20; 30; 40]%N) 25 = Some (Result 1).
Proof. reflexivity. Qed.

Example ruby_scenario_5 : ruby_binary_search (ring []) 1 = Some (Result (-1)).
Proof. reflexivity. Qed.

(** An unsorted array is searched all the same. *)
Example unsorted_trace : binary_search (ring [40; 10; 30; 20]%N) 20 = Some (Returned 1).
Proof. reflexivity. Qed.

(** ** Machine arithmetic *)

Lemma to_int_small (z : Z) : INT_MIN <= z <= INT_MAX -> to_int z = z.
Proof.
  unfold to_int, INT_MIN, INT_MAX. intros Hz.
  rewrite Z.mod_small by lia. lia.
Qed.

Lemma to_int_range (z : Z) : INT_MIN <= to_int z <= INT_MAX.
Proof.
  unfold to_int, INT_MIN, INT_MAX.
  pose proof (Z.mod_pos_bound (z - -2147483648) 4294967296 eq_refl). lia.
Qed.

Lemma to_int_high (z : Z) : INT_MAX < z <= INT_MAX + 4294967296 -> to_int z = z - 4294967296.
Proof.
  unfold to_int, INT_MIN, INT_MAX. intros Hz.
  replace (z - -2147483648) with ((z - 2147483648) + 1 * 4294967296) by lia.
  rewrite Z.mod_add by lia. rewrite Z.mod_small by lia. lia.
Qed.

Lemma half_bounds (s : Z) : 2 * (s / 2) <= s <= 2 * (s / 2) + 1.
Proof.
  pose proof (Z.div_mod s 2 ltac:(lia)).
  pose proof (Z.mod_pos_bound s 2 ltac:(lia)). lia.
Qed.

Lemma quot2_nonneg (s : Z) : 0 <= s -> Z.quot s 2 = s / 2.
Proof. intros Hs. apply Z.quot_div_nonneg; lia. Qed.

Lemma quot2_neg (s : Z) : s <= -2 -> Z.quot s 2 < 0.
Proof.
  intros Hs. replace s with (- (- s)) by lia.
  rewrite Z.quot_opp_l by lia. rewrite quot2_nonneg by lia.
  assert (1 <= - s / 2) by (apply Z.div_le_lower_bound; lia). lia.
Qed.

(** The midpoint of bounds whose sum fits an [int] is the floor of the half
    sum, and lies between the bounds. *)
Lemma midpoint_exact (lower upper : Z) :
  0 <= lower -> lower <= upper -> lower + upper <= INT_MAX ->
  midpoint lower upper = (lower + upper) / 2 /\
  lower <= midpoint lower upper <= upper.
Proof.
  intros Hl Hlu Hs. unfold midpoint.
  rewrite to_int_small by (unfold INT_MIN; lia).
  rewrite quot2_nonneg by lia.
  split; [reflexivity|].
  split; [apply Z.div_le_lower_bound | apply Z.div_le_upper_bound]; lia.
Qed.

(** When the sum leaves the [int] range the midpoint is negative. *)
Lemma midpoint_overflow (lower upper : Z) :
  lower <= INT_MAX -> upper <= INT_MAX -> INT_MAX < lower + upper ->
  midpoint lower upper < 0.
Proof.
  intros Hl Hu Hs. unfold midpoint.
  rewrite to_int_high by (unfold INT_MAX in *; lia).
  apply quot2_neg. unfold INT_MAX in *. lia.
Qed.

Section Facts.

Context {P : Type}.
Implicit Types (ary : list (Entry P)) (r q : N).

(** ** Reading the array *)

Lemma RARRAY_LEN_nonneg ary : 0 <= RARRAY_LEN ary.
Proof. unfold RARRAY_LEN. lia. Qed.

Lemma RARRAY_PTR_inside ary idx :
  0 <= idx < RARRAY_LEN ary -> exists e, RARRAY_PTR ary idx = Some e.
Proof.
  unfold RARRAY_PTR, RARRAY_LEN. intros Hi.
  destruct (Z.ltb_spec idx 0) as [Hneg|_]; [lia|].
  destruct (nth_error ary (Z.to_nat idx)) as [e|] eqn:Hnth; [now exists e|].
  apply nth_error_None in Hnth. lia.
Qed.

Lemma RARRAY_PTR_some ary idx e :
  RARRAY_PTR ary idx = Some e -> 0 <= idx < RARRAY_LEN ary.
Proof.
  unfold RARRAY_PTR, RARRAY_LEN.
  destruct (Z.ltb_spec idx 0) as [Hneg|Hpos]; [discriminate|].
  intros Hnth.
  assert (Hlt : (Z.to_nat idx < length ary)%nat)
    by (apply nth_error_Some; congruence).
  lia.
Qed.

Lemma RARRAY_PTR_negative ary idx : idx < 0 -> RARRAY_PTR ary idx = None.
Proof.
  unfold RARRAY_PTR. intros Hneg.
  destruct (Z.ltb_spec idx 0); [reflexivity | lia].
Qed.

Lemma value_at_some ary i v :
  value_at ary i = Some v -> 0 <= i < RARRAY_LEN ary.
Proof.
  unfold value_at. destruct (RARRAY_PTR ary i) as [e|] eqn:He; [|discriminate].
  intros _. eapply RARRAY_PTR_some; eassumption.
Qed.

Lemma value_at_inside ary i :
  0 <= i < RARRAY_LEN ary -> exists v, value_at ary i = Some v.
Proof.
  intros Hi. destruct (RARRAY_PTR_inside ary i Hi) as [e He].
  exists (value e). unfold value_at. now rewrite He.
Qed.

Lemma value_at_negative ary i : i < 0 -> value_at ary i = None.
Proof. intros Hi. unfold value_at. now rewrite RARRAY_PTR_negative. Qed.

Lemma value_at_of_nat ary (k : nat) :
  value_at ary (Z.of_nat k) = option_map value (nth_error ary k).
Proof.
  unfold value_at, RARRAY_PTR.
  destruct (Z.ltb_spec (Z.of_nat k) 0); [lia|].
  now rewrite Nat2Z.id.
Qed.

Lemma value_at_nth ary i v :
  value_at ary i = Some v ->
  exists e, nth_error ary (Z.to_nat i) = Some e /\ value e = v /\ 0 <= i.
Proof.
  intros Hv. pose proof (value_at_some _ _ _ Hv) as Hi.
  rewrite <- (Z2Nat.id i), value_at_of_nat in Hv by lia.
  destruct (nth_error ary (Z.to_nat i)) as [e|]; [|discriminate].
  exists e. simpl in Hv. intuition congruence.
Qed.

Lemma RARRAY_LEN_app ary ary' :
  RARRAY_LEN (ary ++ ary') = RARRAY_LEN ary + RARRAY_LEN ary'.
Proof. unfold RARRAY_LEN. rewrite length_app. lia. Qed.

Lemma value_at_app_left ary ary' i :
  i < RARRAY_LEN ary -> value_at (ary ++ ary') i = value_at ary i.
Proof.
  intros Hi. destruct (Z_lt_ge_dec i 0) as [Hneg|Hpos].
  - now rewrite !value_at_negative.
  - unfold value_at, RARRAY_PTR, RARRAY_LEN in *.
    destruct (Z.ltb_spec i 0); [lia|].
    rewrite nth_error_app1 by lia. reflexivity.
Qed.

(** An entry equal to the query is an index that holds it. *)
Lemma present_value_at ary q :
  In q (map value ary) <-> exists i, value_at ary i = Some q.
Proof.
  split.
  - intros Hin. apply in_map_iff in Hin. destruct Hin as (e & He & Hin).
    apply In_nth_error in Hin. destruct Hin as [k Hk].
    exists (Z.of_nat k). rewrite value_at_of_nat, Hk. simpl. congruence.
  - intros [i Hi]. apply value_at_nth in Hi. destruct Hi as (e & He & Hv & _).
    apply in_map_iff. exists e. split; [exact Hv|].
    eapply nth_error_In; eassumption.
Qed.

Lemma holds_true ary q i : holds ary q i = true <-> value_at ary i = Some q.
Proof.
  unfold holds. destruct (value_at ary i) as [v|].
  - rewrite N.eqb_eq. split; congruence.
  - split; discriminate.
Qed.

(** ** One round *)

Lemma search_loop_unfold fuel ary r lower upper :
  search_loop (S fuel) ary r lower upper =
  match iteration ary r lower upper with
  | Exit o => Some o
  | Loop lower' upper' => search_loop fuel ary r lower' upper'
  end.
Proof. reflexivity. Qed.

Lemma bounds_trace_unfold fuel ary r lower upper :
  bounds_trace (S fuel) ary r lower upper =
  (lower, upper) ::
  match iteration ary r lower upper with
  | Exit _ => []
  | Loop lower' upper' => bounds_trace fuel ary r lower' upper'
  end.
Proof. reflexivity. Qed.

Lemma probe_trace_unfold fuel ary r lower upper :
  probe_trace (S fuel) ary r lower upper =
  if lower <=? upper then
    midpoint lower upper ::
    match iteration ary r lower upper with
    | Exit _ => []
    | Loop lower' upper' => probe_trace fuel ary r lower' upper'
    end
  else [].
Proof. reflexivity. Qed.

Lemma iteration_done ary r lower upper :
  upper < lower -> iteration ary r lower upper = Exit (Returned upper).
Proof.
  intros Hlt. unfold iteration.
  destruct (Z.leb_spec lower upper); [lia | reflexivity].
Qed.

(** A round on bounds inside the array whose sum fits an [int]: the
    midpoint is exact, the read is inside the array, and the three branches
    of the source are all there is. *)
Lemma iteration_inside ary r lower upper :
  lower + upper <= INT_MAX ->
  0 <= lower -> lower <= upper -> upper < RARRAY_LEN ary ->
  exists idx v,
    idx = (lower + upper) / 2 /\ midpoint lower upper = idx /\
    lower <= idx <= upper /\ value_at ary idx = Some v /\
    iteration ary r lower upper =
      if (v =? r)%N then Exit (Returned idx)
      else if (r <? v)%N then Loop lower (idx - 1)
      else Loop (idx + 1) upper.
Proof.
  intros Hsum Hl Hlu Hu.
  destruct (midpoint_exact lower upper Hl Hlu Hsum) as [Hmid Hin].
  pose proof (half_bounds (lower + upper)) as Hhalf. rewrite <- Hmid in Hhalf.
  unfold INT_MAX in Hsum.
  destruct (RARRAY_PTR_inside ary (midpoint lower upper)) as [e He]; [lia|].
  exists (midpoint lower upper), (value e).
  repeat split; try tauto; try lia.
  - unfold value_at. now rewrite He.
  - unfold iteration.
    destruct (Z.leb_spec lower upper); [|lia].
    cbv zeta. rewrite He.
    rewrite !to_int_small by (unfold INT_MIN, INT_MAX; lia).
    reflexivity.
Qed.

(** Going round again at least halves the interval [lower .. upper], on any
    array. *)
Lemma iteration_halves ary r lower upper :
  plausible lower upper ->
  match iteration ary r lower upper with
  | Exit _ => True
  | Loop lower' upper' =>
      plausible lower' upper' /\
      lower <= upper /\
      2 * (upper' - lower' + 1) <= upper - lower + 1
  end.
Proof.
  unfold plausible, MAX_LEN, INT_MAX. intros [Hl Hu].
  unfold iteration.
  destruct (Z.leb_spec lower upper) as [Hlu|]; [|exact I].
  cbv zeta.
  destruct (Z_le_gt_dec (lower + upper) INT_MAX) as [Hfit|Hover].
  - destruct (midpoint_exact lower upper) as [Hmid Hin]; try lia.
    pose proof (half_bounds (lower + upper)) as Hhalf.
    rewrite <- Hmid in Hhalf. unfold INT_MAX in Hfit.
    destruct (RARRAY_PTR ary (midpoint lower upper)); [|exact I].
    destruct (value e =? r)%N; [exact I|].
    rewrite !to_int_small by (unfold INT_MIN, INT_MAX; lia).
    destruct (r <? value e)%N; lia.
  - rewrite RARRAY_PTR_negative; [exact I|].
    apply midpoint_overflow; unfold INT_MAX in *; lia.
Qed.

(** ** The loop always comes to an end *)

Lemma search_loop_ends ary r (k : nat) : forall lower upper,
  plausible lower upper ->
  upper - lower + 1 < 2 ^ Z.of_nat k ->
  exists o, search_loop (S k) ary r lower upper = Some o.
Proof.
  induction k as [|k IH]; intros lower upper Hp Hsize.
  - change (2 ^ Z.of_nat 0) with 1 in Hsize.
    rewrite search_loop_unfold, iteration_done by lia. eauto.
  - rewrite search_loop_unfold.
    pose proof (iteration_halves ary r lower upper Hp) as Hstep.
    destruct (iteration ary r lower upper) as [o|lower' upper']; [eauto|].
    destruct Hstep as (Hp' & _ & Hhalf).
    apply IH; [exact Hp'|].
    rewrite Nat2Z.inj_succ, Z.pow_succ_r in Hsize by lia. lia.
Qed.

Lemma initial_plausible ary : plausible 0 (initial_upper ary).
Proof.
  unfold plausible, MAX_LEN. split; [lia|]. apply to_int_range.
Qed.

Lemma initial_size ary : initial_upper ary - 0 + 1 < 2 ^ Z.of_nat 32.
Proof.
  pose proof (to_int_range (RARRAY_LEN ary - 1)) as Hr.
  unfold initial_upper. unfold INT_MAX in Hr.
  change (2 ^ Z.of_nat 32) with 4294967296. lia.
Qed.

(** X11: the 33 rounds of [binary_search] are never used up, whatever the
    array (sorted or not, of any length) and whatever the number: the loop
    is left, with a return value or at a read outside the array, after at
    most 33 evaluations of its condition. *)
Lemma binary_search_total ary r : exists o, binary_search ary r = Some o.
Proof.
  unfold binary_search, rounds.
  apply search_loop_ends; [apply initial_plausible | apply initial_size].
Qed.

End Facts.

(** ** Reasoning about the loop with an invariant *)

Section Loop_rules.

Context {P : Type}.
Variables (ary : list (Entry P)) (r : N).
Variable Inv : Z -> Z -> Prop.
Variable Post : outcome -> Prop.

Hypothesis Inv_plausible :
  forall lower upper, Inv lower upper -> plausible lower upper.

Hypothesis Inv_step :
  forall lower upper, Inv lower upper ->
  match iteration ary r lower upper with
  | Exit o => Post o
  | Loop lower' upper' => Inv lower' upper'
  end.

Lemma search_loop_rule (k : nat) : forall lower upper,
  Inv lower upper ->
  upper - lower + 1 < 2 ^ Z.of_nat k ->
  exists o, search_loop (S k) ary r lower upper = Some o /\ Post o.
Proof.
  induction k as [|k IH]; intros lower upper HI Hsize;
    rewrite search_loop_unfold;
    pose proof (Inv_step lower upper HI) as Hstep;
    pose proof (iteration_halves ary r lower upper (Inv_plausible _ _ HI)) as Hhalf;
    destruct (iteration ary r lower upper) as [o|lower' upper']; eauto;
    destruct Hhalf as (_ & Hlu & Hhalf).
  - change (2 ^ Z.of_nat 0) with 1 in Hsize. lia.
  - apply IH; [exact Hstep|].
    rewrite Nat2Z.inj_succ, Z.pow_succ_r in Hsize by lia. lia.
Qed.

Lemma binary_search_rule :
  Inv 0 (initial_upper ary) ->
  exists o, binary_search ary r = Some o /\ Post o.
Proof.
  intros HI. unfold binary_search, rounds.
  apply search_loop_rule; [exact HI | apply initial_size].
Qed.

Lemma bounds_trace_rule (k : nat) : forall lower upper,
  Inv lower upper ->
  Forall (fun b => Inv (fst b) (snd b)) (bounds_trace k ary r lower upper).
Proof.
  induction k as [|k IH]; intros lower upper HI; simpl; constructor; [exact HI|].
  pose proof (Inv_step lower upper HI) as Hstep.
  destruct (iteration ary r lower upper) as [o|lower' upper']; auto.
Qed.

Lemma probe_trace_rule (k : nat) : forall lower upper,
  Inv lower upper ->
  Forall (fun idx => exists lo up, Inv lo up /\ lo <= up /\ idx = midpoint lo up)
         (probe_trace k ary r lower upper).
Proof.
  induction k as [|k IH]; intros lower upper HI; simpl; [constructor|].
  destruct (Z.leb_spec lower upper) as [Hlu|]; constructor.
  - exists lower, upper. auto.
  - pose proof (Inv_step lower upper HI) as Hstep.
    destruct (iteration ary r lower upper) as [o|lower' upper']; auto.
Qed.

End Loop_rules.

(** ** Where a returned index comes from *)

Section Exits.

Context {P : Type}.
Variables (ary : list (Entry P)) (q : N).

(** A returned index is the first index of the probe path that holds the
    query, or, with no such index on the path, the [upper] of bounds at which
    the loop condition failed. *)
Lemma returned_origin (k : nat) : forall lower upper i,
  search_loop k ary q lower upper = Some (Returned i) ->
  first_match ary q (probe_trace k ary q lower upper) = Some i \/
  (first_match ary q (probe_trace k ary q lower upper) = None /\
   exists lo, In (lo, i) (bounds_trace k ary q lower upper) /\ i < lo).
Proof.
  induction k as [|k IH]; intros lower upper i Hrun; [discriminate|].
  rewrite search_loop_unfold in Hrun.
  rewrite probe_trace_unfold, bounds_trace_unfold.
  unfold iteration in *.
  destruct (Z.leb_spec lower upper) as [Hle|Hgt].
  - cbv zeta in *. unfold first_match. cbn [find].
    destruct (RARRAY_PTR ary (midpoint lower upper)) as [e|] eqn:He;
      [|discriminate].
    assert (Hval : value_at ary (midpoint lower upper) = Some (value e))
      by (unfold value_at; now rewrite He).
    unfold holds at 1 3. rewrite Hval.
    destruct (value e =? q)%N.
    + injection Hrun as <-. left. reflexivity.
    + destruct (q <? value e)%N;
        (destruct (IH _ _ _ Hrun) as [Hfirst|(Hnone & lo & Hin & Hlt)];
         [left; exact Hfirst
         |right; split; [exact Hnone | exists lo; split; [right; exact Hin | exact Hlt]]]).
  - injection Hrun as <-. right. split; [reflexivity|].
    exists lower. split; [left; reflexivity | lia].
Qed.

(** The first index of the probe path that holds the query is returned. *)
Lemma first_match_returned (k : nat) : forall lower upper i,
  first_match ary q (probe_trace k ary q lower upper) = Some i ->
  search_loop k ary q lower upper = Some (Returned i).
Proof.
  induction k as [|k IH]; intros lower upper i Hfirst; [discriminate|].
  rewrite search_loop_unfold. rewrite probe_trace_unfold in Hfirst.
  unfold iteration in *.
  destruct (Z.leb_spec lower upper) as [Hle|Hgt]; [|discriminate].
  cbv zeta in *. unfold first_match in Hfirst. cbn [find] in Hfirst.
  unfold holds at 1 in Hfirst. unfold value_at at 1 in Hfirst.
  destruct (RARRAY_PTR ary (midpoint lower upper)) as [e|] eqn:He;
    cbn [option_map] in Hfirst; [|discriminate].
  destruct (value e =? q)%N; [congruence|].
  destruct (q <? value e)%N; apply IH; exact Hfirst.
Qed.

End Exits.

(** ** The search on an array of at most [2^30] entries *)

Section Short_arrays.

Context {P : Type}.
Variables (ary : list (Entry P)) (q : N).
Hypothesis short : RARRAY_LEN ary <= MAX_LEN.

Lemma initial_upper_short : initial_upper ary = RARRAY_LEN ary - 1.
Proof.
  unfold initial_upper. pose proof (RARRAY_LEN_nonneg ary).
  apply to_int_small. unfold INT_MIN, INT_MAX, MAX_LEN in *. lia.
Qed.

Lemma inside_inv_plausible lower upper :
  inside_inv ary lower upper -> plausible lower upper.
Proof.
  unfold inside_inv, plausible, MAX_LEN, INT_MAX in *. intros (Hl & Hu & Hlu). lia.
Qed.

Lemma inside_inv_initial : inside_inv ary 0 (initial_upper ary).
Proof.
  rewrite initial_upper_short. pose proof (RARRAY_LEN_nonneg ary).
  unfold inside_inv. lia.
Qed.

(** A round on bounds inside such an array. *)
Lemma inside_iteration lower upper :
  inside_inv ary lower upper -> lower <= upper ->
  exists idx v,
    idx = (lower + upper) / 2 /\ midpoint lower upper = idx /\
    lower <= idx <= upper /\ value_at ary idx = Some v /\
    iteration ary q lower upper =
      if (v =? q)%N then Exit (Returned idx)
      else if (q <? v)%N then Loop lower (idx - 1)
      else Loop (idx + 1) upper.
Proof.
  intros (Hl & Hu & Hlu) Hle.
  apply iteration_inside; unfold MAX_LEN, INT_MAX in *; lia.
Qed.

Lemma inside_inv_step lower upper :
  inside_inv ary lower upper ->
  match iteration ary q lower upper with
  | Exit o => inside_post ary o
  | Loop lower' upper' => inside_inv ary lower' upper'
  end.
Proof.
  intros HI. pose proof HI as (Hl & Hu & Hlu).
  destruct (Z_le_gt_dec lower upper) as [Hle|Hgt].
  - destruct (inside_iteration lower upper HI Hle)
      as (idx & v & _ & _ & Hidx & Hv & ->).
    destruct (v =? q)%N; [exists idx; split; [reflexivity | lia]|].
    destruct (q <? v)%N; unfold inside_inv; lia.
  - rewrite iteration_done by lia. exists upper. split; [reflexivity | lia].
Qed.

(** X4: on an array of at most [2^30] entries, sorted or not, the search
    returns an integer between [-1] and the last index. *)
Lemma binary_search_inside :
  exists i, binary_search ary q = Some (Returned i) /\
            -1 <= i <= RARRAY_LEN ary - 1.
Proof.
  destruct (binary_search_rule ary q (inside_inv ary) (inside_post ary))
    as (o & Hrun & i & -> & Hi).
  - exact inside_inv_plausible.
  - exact inside_inv_step.
  - exact inside_inv_initial.
  - exists i. split; [exact Hrun | exact Hi].
Qed.

(** Every pair of bounds the loop meets is inside the array. *)
Lemma bounds_inside :
  Forall (fun b => inside_inv ary (fst b) (snd b)) (bounds ary q).
Proof.
  apply (bounds_trace_rule ary q (inside_inv ary) (inside_post ary)).
  - exact inside_inv_step.
  - exact inside_inv_initial.
Qed.

(** X5: on an array of at most [2^30] entries, sorted or not, every index
    at which the array is read lies between [0] and the last index. *)
Lemma probes_inside :
  Forall (fun idx => 0 <= idx <= RARRAY_LEN ary - 1) (probes ary q).
Proof.
  eapply Forall_impl;
    [|apply (probe_trace_rule ary q (inside_inv ary) (inside_post ary));
      [exact inside_inv_step | exact inside_inv_initial]].
  intros idx (lo & up & HI & Hle & ->).
  pose proof HI as (Hl & Hu & Hlu).
  destruct (inside_iteration lo up HI Hle) as (idx & v & _ & -> & Hidx & _).
  lia.
Qed.

(** X6: on an array of at most [2^30] entries, every sum [lower + upper]
    the loop computes fits an [int], and the midpoint it gets by the
    truncating division is the floor of the half sum. *)
Lemma midpoints_exact :
  Forall (fun b => fst b <= snd b ->
                   fst b + snd b <= INT_MAX /\
                   midpoint (fst b) (snd b) = (fst b + snd b) / 2)
         (bounds ary q).
Proof.
  eapply Forall_impl; [|exact bounds_inside].
  intros [lo up] HI Hle. cbn [fst snd] in *.
  pose proof HI as (Hl & Hu & Hlu).
  assert (Hsum : lo + up <= INT_MAX) by (unfold MAX_LEN, INT_MAX in *; lia).
  split; [exact Hsum|].
  apply midpoint_exact; lia.
Qed.

(** X7: on an array of at most [2^30] entries, sorted or not, every round
    of the loop returns, or goes on with a strictly shorter interval inside
    the old one; no round reads outside the array. *)
Lemma rounds_return_or_shrink :
  Forall (returns_or_shrinks ary q) (bounds ary q).
Proof.
  eapply Forall_impl; [|exact bounds_inside].
  intros [lo up] HI. unfold returns_or_shrinks. cbn [fst snd] in *.
  pose proof HI as (Hl & Hu & Hlu).
  destruct (Z_le_gt_dec lo up) as [Hle|Hgt].
  - destruct (inside_iteration lo up HI Hle)
      as (idx & v & _ & _ & Hidx & Hv & ->).
    destruct (v =? q)%N; [exact I|].
    destruct (q <? v)%N; lia.
  - rewrite iteration_done by lia. exact I.
Qed.

End Short_arrays.

(** ** Sorted arrays *)

Section Sorted_arrays.

Context {P : Type}.
Implicit Types (ary : list (Entry P)) (q : N).

Lemma by_value_trans : Transitive (@by_value P).
Proof. unfold by_value. intros a b c Hab Hbc. lia. Qed.

Lemma strongly_sorted_nth ary :
  StronglySorted by_value ary ->
  forall (i j : nat) a b, (i <= j)%nat ->
  nth_error ary i = Some a -> nth_error ary j = Some b ->
  (value a <= value b)%N.
Proof.
  induction 1 as [|e rest Hrest IH Hall]; intros i j a b Hij Ha Hb.
  - destruct i; discriminate.
  - destruct i as [|i], j as [|j]; simpl in Ha, Hb.
    + assert (a = b) by congruence. subst. lia.
    + injection Ha as <-. apply nth_error_In in Hb.
      rewrite Forall_forall in Hall. exact (Hall _ Hb).
    + lia.
    + apply (IH i j); [lia | assumption | assumption].
Qed.

(** In a sorted array the values do not decrease with the index. *)
Lemma sorted_value_at ary :
  sorted ary ->
  forall i j vi vj, i <= j ->
  value_at ary i = Some vi -> value_at ary j = Some vj -> (vi <= vj)%N.
Proof.
  intros Hs i j vi vj Hij Hi Hj.
  apply Sorted_StronglySorted in Hs; [|exact by_value_trans].
  apply value_at_nth in Hi. destruct Hi as (a & Ha & <- & Hi0).
  apply value_at_nth in Hj. destruct Hj as (b & Hb & <- & Hj0).
  apply (strongly_sorted_nth ary Hs (Z.to_nat i) (Z.to_nat j)); auto. lia.
Qed.

(** *** The predecessor index, as the specification words it *)

Lemma last_below_split q : forall ary base acc i,
  acc <= i < base + RARRAY_LEN ary ->
  (i < base -> i = acc) ->
  (forall (k : nat) e, nth_error ary k = Some e ->
     (value e <? q)%N = (base + Z.of_nat k <=? i)) ->
  last_below ary q base acc = i.
Proof.
  unfold RARRAY_LEN.
  induction ary as [|e rest IH]; intros base acc i Hi Hacc Hval; simpl in *.
  - lia.
  - pose proof (Hval 0%nat e eq_refl) as He. rewrite Z.add_0_r in He.
    apply IH.
    + destruct (Z.leb_spec base i); rewrite He; lia.
    + destruct (Z.leb_spec base i); rewrite He; lia.
    + intros k e' Hk. rewrite (Hval (S k) e' Hk). f_equal. lia.
Qed.

Lemma separates_predecessor ary q i :
  separates ary q i -> predecessor_index ary q = i.
Proof.
  intros (Hi & Hlow & Hhigh). unfold predecessor_index.
  apply last_below_split; [lia | lia |].
  intros k e Hk.
  assert (Hv : value_at ary (Z.of_nat k) = Some (value e))
    by (rewrite value_at_of_nat, Hk; reflexivity).
  destruct (Z.leb_spec (0 + Z.of_nat k) i) as [Hle|Hgt].
  - apply N.ltb_lt. apply (Hlow (Z.of_nat k)); [lia | exact Hv].
  - apply N.ltb_ge. apply N.lt_le_incl. apply (Hhigh (Z.of_nat k)); [lia | exact Hv].
Qed.

(** An index that separates leaves no entry equal to the query. *)
Lemma separates_absent ary q i j :
  separates ary q i -> value_at ary j <> Some q.
Proof.
  intros (_ & Hlow & Hhigh) Hj.
  destruct (Z_le_gt_dec j i) as [Hle|Hgt].
  - specialize (Hlow j q Hle Hj). lia.
  - specialize (Hhigh j q ltac:(lia) Hj). lia.
Qed.

(** *** The search on a sorted array of at most [2^30] entries *)

Section Sorted_search.

Variables (ary : list (Entry P)) (q : N).
Hypothesis Hsorted : sorted ary.
Hypothesis short : RARRAY_LEN ary <= MAX_LEN.

Lemma sorted_inv_step lower upper :
  sorted_inv ary q lower upper ->
  match iteration ary q lower upper with
  | Exit o => sorted_post ary q o
  | Loop lower' upper' => sorted_inv ary q lower' upper'
  end.
Proof.
  intros (HI & Hlow & Hhigh). pose proof HI as (Hl & Hu & Hlu).
  destruct (Z_le_gt_dec lower upper) as [Hle|Hgt].
  - destruct (inside_iteration ary q short lower upper HI Hle)
      as (idx & v & _ & _ & Hidx & Hv & ->).
    destruct (N.eqb_spec v q) as [->|Hne].
    + exists idx. auto.
    + destruct (N.ltb_spec q v) as [Hqv|Hvq].
      * repeat split; try lia; auto.
        intros j vj Hj Hvj.
        pose proof (sorted_value_at ary Hsorted idx j v vj) as Hmono.
        specialize (Hmono ltac:(lia) Hv Hvj). lia.
      * repeat split; try lia; auto.
        intros j vj Hj Hvj.
        pose proof (sorted_value_at ary Hsorted j idx vj v) as Hmono.
        specialize (Hmono ltac:(lia) Hvj Hv). lia.
  - rewrite iteration_done by lia.
    exists upper. split; [reflexivity|]. right.
    repeat split; try lia; auto.
    intros j v Hj. apply Hlow. lia.
Qed.

Lemma sorted_inv_plausible lower upper :
  sorted_inv ary q lower upper -> plausible lower upper.
Proof. intros (HI & _). now apply (inside_inv_plausible ary). Qed.

Lemma sorted_inv_initial : sorted_inv ary q 0 (initial_upper ary).
Proof.
  split; [now apply inside_inv_initial|].
  rewrite initial_upper_short by exact short.
  split; intros j v Hj Hv; apply value_at_some in Hv; lia.
Qed.

(** The search returns an index that holds the query, or else the index
    that separates the smaller entries from the larger ones. *)
Lemma binary_search_sorted :
  exists i, binary_search ary q = Some (Returned i) /\
            (value_at ary i = Some q \/ separates ary q i).
Proof.
  destruct (binary_search_rule ary q (sorted_inv ary q) (sorted_post ary q))
    as (o & Hrun & i & -> & Hpost).
  - exact sorted_inv_plausible.
  - exact sorted_inv_step.
  - exact sorted_inv_initial.
  - exists i. split; [exact Hrun | exact Hpost].
Qed.

Lemma binary_search_present :
  In q (map value ary) ->
  exists i, binary_search ary q = Some (Returned i) /\ value_at ary i = Some q.
Proof.
  intros Hin. apply present_value_at in Hin. destruct Hin as [j Hj].
  destruct binary_search_sorted as (i & Hrun & [Hfound|Hsep]).
  - exists i. split; assumption.
  - exfalso. exact (separates_absent ary q i j Hsep Hj).
Qed.

Lemma binary_search_absent :
  ~ In q (map value ary) ->
  exists i, binary_search ary q = Some (Returned i) /\ separates ary q i.
Proof.
  intros Hout.
  destruct binary_search_sorted as (i & Hrun & [Hfound|Hsep]).
  - exfalso. apply Hout. apply present_value_at. exists i. exact Hfound.
  - exists i. split; assumption.
Qed.

(** Every pair of bounds the loop meets on a sorted array keeps the smaller
    entries to the left of [lower] and the larger ones to the right of
    [upper]. *)
Lemma bounds_sorted :
  Forall (fun b => sorted_inv ary q (fst b) (snd b)) (bounds ary q).
Proof.
  apply (bounds_trace_rule ary q (sorted_inv ary q) (sorted_post ary q)).
  - exact sorted_inv_step.
  - exact sorted_inv_initial.
Qed.

(** X10: on a sorted array of at most [2^30] entries with an entry equal to
    the query, the probe path meets an index that holds the query, and the
    first one it meets is returned. *)
Lemma binary_search_first_match :
  In q (map value ary) ->
  exists i, binary_search ary q = Some (Returned i) /\
            first_match ary q (probes ary q) = Some i.
Proof.
  intros Hin. destruct (binary_search_present Hin) as (i & Hrun & Hi).
  exists i. split; [exact Hrun|].
  destruct (returned_origin ary q rounds 0 (initial_upper ary) i Hrun)
    as [Hfirst|(_ & lo & Hb & Hlt)]; [exact Hfirst|].
  exfalso.
  pose proof bounds_sorted as Hall. rewrite Forall_forall in Hall.
  destruct (Hall _ Hb) as (_ & Hlow & _). cbn [fst snd] in Hlow.
  specialize (Hlow i q Hlt Hi). lia.
Qed.

End Sorted_search.

(** *** The returned index does not decrease with the query *)

(** X9: on a sorted array of at most [2^30] entries, a larger query never
    gets a smaller index: for [q1 <= q2] both searches return, and the index
    returned for [q1] is at most the one returned for [q2]. *)
Lemma binary_search_monotone ary (q1 q2 : N) :
  sorted ary -> RARRAY_LEN ary <= MAX_LEN -> (q1 <= q2)%N ->
  exists i1 i2,
    binary_search ary q1 = Some (Returned i1) /\
    binary_search ary q2 = Some (Returned i2) /\ i1 <= i2.
Proof.
  intros Hs Hlen Hq.
  destruct (binary_search_sorted ary q1 Hs Hlen) as (i1 & Hrun1 & Hres1).
  destruct (binary_search_sorted ary q2 Hs Hlen) as (i2 & Hrun2 & Hres2).
  exists i1, i2. split; [exact Hrun1|]. split; [exact Hrun2|].
  destruct (N.eq_dec q1 q2) as [->|Hne];
    [assert (i1 = i2) by congruence; lia|].
  assert (Hlt : (q1 < q2)%N) by lia.
  destruct (Z_le_gt_dec i1 i2) as [Hle|Hgt]; [exact Hle|exfalso].
  destruct Hres1 as [Hv1|(Hi1 & Hlow1 & Hhigh1)];
    destruct Hres2 as [Hv2|(Hi2 & Hlow2 & Hhigh2)].
  - pose proof (sorted_value_at ary Hs i2 i1 q2 q1 ltac:(lia) Hv2 Hv1). lia.
  - specialize (Hhigh2 i1 q1 ltac:(lia) Hv1). lia.
  - specialize (Hlow1 i2 q2 ltac:(lia) Hv2). lia.
  - destruct (value_at_inside ary i1 ltac:(lia)) as [v Hv].
    specialize (Hlow1 i1 v ltac:(lia) Hv).
    specialize (Hhigh2 i1 v ltac:(lia) Hv). lia.
Qed.

(** *** A query below every entry *)

Section Descent.

Variables (ary : list (Entry P)) (q : N).
Hypothesis fits_int : RARRAY_LEN ary <= 2 * MAX_LEN.
Hypothesis Habove : forall j v, value_at ary j = Some v -> (q < v)%N.

Lemma initial_upper_fits : initial_upper ary = RARRAY_LEN ary - 1.
Proof.
  unfold initial_upper. pose proof (RARRAY_LEN_nonneg ary).
  apply to_int_small. unfold INT_MIN, INT_MAX, MAX_LEN in *. lia.
Qed.

Lemma descent_inv_step lower upper :
  descent_inv ary lower upper ->
  match iteration ary q lower upper with
  | Exit o => o = Returned (-1)
  | Loop lower' upper' => descent_inv ary lower' upper'
  end.
Proof.
  intros (-> & Hu).
  destruct (Z_le_gt_dec 0 upper) as [Hle|Hgt].
  - destruct (iteration_inside ary q 0 upper)
      as (idx & v & _ & _ & Hidx & Hv & ->);
      try (unfold MAX_LEN, INT_MAX in *; lia).
    specialize (Habove idx v Hv).
    destruct (N.eqb_spec v q); [lia|].
    destruct (N.ltb_spec q v); [|lia].
    unfold descent_inv. lia.
  - rewrite iteration_done by lia. f_equal. f_equal. lia.
Qed.

(** No sum of bounds overflows on the way down, so an array of up to [2^31]
    entries is enough here. *)
Lemma binary_search_descent : binary_search ary q = Some (Returned (-1)).
Proof.
  destruct (binary_search_rule ary q (descent_inv ary) (fun o => o = Returned (-1)))
    as (o & Hrun & ->).
  - intros lower upper (-> & Hu). unfold plausible, MAX_LEN, INT_MAX in *. lia.
  - exact descent_inv_step.
  - rewrite initial_upper_fits. pose proof (RARRAY_LEN_nonneg ary).
    unfold descent_inv. lia.
  - exact Hrun.
Qed.

End Descent.

End Sorted_arrays.

(** ** Arrays too long for the [int] arithmetic *)

Lemma RARRAY_LEN_level (v : N) (n : Z) : 0 <= n -> RARRAY_LEN (level v n) = n.
Proof.
  intros Hn. unfold RARRAY_LEN, level. rewrite repeat_length. apply Z2Nat.id, Hn.
Qed.

Lemma value_at_level (v : N) (n i : Z) (w : N) :
  value_at (level v n) i = Some w -> w = v.
Proof.
  intros Hw. apply value_at_nth in Hw. destruct Hw as (e & He & <- & _).
  apply nth_error_In in He. unfold level in He.
  apply repeat_spec in He. now subst e.
Qed.

Lemma value_at_level_inside (v : N) (n i : Z) :
  0 <= i < n -> value_at (level v n) i = Some v.
Proof.
  intros Hi.
  destruct (value_at_inside (level v n) i) as [w Hw].
  - rewrite RARRAY_LEN_level; lia.
  - rewrite Hw. f_equal. eapply value_at_level; eassumption.
Qed.

Lemma sorted_repeat_app (e : Entry unit) (k : nat) (tail : list (Entry unit)) :
  sorted (e :: tail) -> sorted (repeat e k ++ tail).
Proof.
  unfold sorted. intros Hs.
  induction k as [|k IH]; simpl.
  - now inversion Hs.
  - constructor; [exact IH|].
    destruct k; simpl.
    + inversion Hs as [|? ? _ Hhd]. exact Hhd.
    + constructor. unfold by_value. lia.
Qed.

Lemma sorted_level (v : N) (n : Z) : sorted (level v n).
Proof.
  unfold level. rewrite <- (app_nil_r (repeat _ _)).
  apply sorted_repeat_app. repeat constructor.
Qed.

Lemma present_level (v : N) (n : Z) : 0 < n -> In v (map value (level v n)).
Proof.
  intros Hn. apply present_value_at. exists 0.
  apply value_at_level_inside. lia.
Qed.

Lemma absent_level (v q : N) (n : Z) : q <> v -> ~ In q (map value (level v n)).
Proof.
  intros Hne Hin. apply present_value_at in Hin. destruct Hin as [i Hi].
  apply value_at_level in Hi. congruence.
Qed.

(** With every entry below the query, the predecessor index is the last
    index. *)
Lemma predecessor_level (v q : N) (n : Z) :
  0 <= n -> (v < q)%N -> predecessor_index (level v n) q = n - 1.
Proof.
  intros Hn Hvq. apply separates_predecessor.
  unfold separates. rewrite RARRAY_LEN_level by exact Hn.
  split; [lia|]. split.
  - intros j w _ Hw. apply value_at_level in Hw. now subst w.
  - intros j w Hj Hw. apply value_at_some in Hw.
    rewrite RARRAY_LEN_level in Hw by exact Hn. lia.
Qed.

Lemma level_not_empty (v : N) (n : Z) : 0 < n -> level v n <> [].
Proof.
  intros Hn Hnil. pose proof (RARRAY_LEN_level v n ltac:(lia)) as Hlen.
  rewrite Hnil in Hlen. unfold RARRAY_LEN in Hlen. simpl in Hlen. lia.
Qed.

Section Long_arrays.

Context {P : Type}.
Variables (ary : list (Entry P)) (r : N).

(** When the last index, stored into [upper], comes out negative, the loop
    is never entered: nothing is read and that negative [upper] is
    returned. *)
Lemma binary_search_narrowed :
  initial_upper ary < 0 ->
  binary_search ary r = Some (Returned (initial_upper ary)) /\
  probes ary r = [].
Proof.
  intros Hneg. unfold binary_search, probes, rounds.
  rewrite search_loop_unfold, probe_trace_unfold, iteration_done by lia.
  destruct (Z.leb_spec 0 (initial_upper ary)); [lia|]. split; reflexivity.
Qed.

Hypothesis Hlen : RARRAY_LEN ary = MAX_LEN + 1.
Hypothesis Hbelow :
  forall i v, 0 <= i < MAX_LEN -> value_at ary i = Some v -> (v < r)%N.

(** [lower = upper = 2^30]: the sum is [2^31], which an [int] holds as
    [-2^31]; half of it is [-2^30], and the array is read there. *)
Lemma overflow_iteration :
  iteration ary r MAX_LEN MAX_LEN = Exit (OutOfBounds (- MAX_LEN)).
Proof.
  unfold iteration.
  change (MAX_LEN <=? MAX_LEN) with true.
  change (midpoint MAX_LEN MAX_LEN) with (- MAX_LEN). cbv zeta.
  rewrite RARRAY_PTR_negative by (unfold MAX_LEN; lia). reflexivity.
Qed.

Lemma climbing_iteration lower :
  0 <= lower < MAX_LEN ->
  exists lower', iteration ary r lower MAX_LEN = Loop lower' MAX_LEN /\
                 lower < lower' <= MAX_LEN /\
                 2 * (MAX_LEN - lower' + 1) <= MAX_LEN - lower + 1.
Proof.
  intros Hl.
  destruct (iteration_inside ary r lower MAX_LEN)
    as (idx & v & Hidx & _ & Hin & Hv & ->);
    try (rewrite ?Hlen; unfold MAX_LEN, INT_MAX in *; lia).
  pose proof (half_bounds (lower + MAX_LEN)) as Hhalf. rewrite <- Hidx in Hhalf.
  assert (Hvr : (v < r)%N) by (apply (Hbelow idx); [lia | exact Hv]).
  destruct (N.eqb_spec v r); [lia|].
  destruct (N.ltb_spec r v); [lia|].
  exists (idx + 1). split; [reflexivity | lia].
Qed.

(** With every entry but perhaps the last below the number, [lower] climbs
    up to [upper = 2^30], and the next read is outside the array. *)
Lemma overflow_loop (k : nat) : forall lower,
  0 <= lower <= MAX_LEN ->
  MAX_LEN - lower + 1 < 2 ^ Z.of_nat k ->
  search_loop (S k) ary r lower MAX_LEN = Some (OutOfBounds (- MAX_LEN)) /\
  In (MAX_LEN, MAX_LEN) (bounds_trace (S k) ary r lower MAX_LEN) /\
  In (- MAX_LEN) (probe_trace (S k) ary r lower MAX_LEN) /\
  first_match ary r (probe_trace (S k) ary r lower MAX_LEN) = None.
Proof.
  induction k as [|k IH]; intros lower Hl Hsize.
  - change (2 ^ Z.of_nat 0) with 1 in Hsize. lia.
  - rewrite search_loop_unfold, bounds_trace_unfold, probe_trace_unfold.
    destruct (Z.eq_dec lower MAX_LEN) as [->|Hne].
    + rewrite overflow_iteration.
      change (MAX_LEN <=? MAX_LEN) with true.
      change (midpoint MAX_LEN MAX_LEN) with (- MAX_LEN).
      unfold first_match. cbn [In find]. unfold holds.
      rewrite value_at_negative by (unfold MAX_LEN; lia). auto.
    + destruct (climbing_iteration lower) as (lower' & Hit & Hl' & Hhalf); [lia|].
      destruct (IH lower') as (Hrun & Hb & Hp & Hnone); [lia | |].
      { rewrite Nat2Z.inj_succ, Z.pow_succ_r in Hsize by lia. lia. }
      destruct (iteration_inside ary r lower MAX_LEN)
        as (idx & v & Hhalf' & Hmid & Hin & Hv & _);
        try (rewrite ?Hlen; unfold MAX_LEN, INT_MAX in *; lia).
      assert (Hidx : idx < MAX_LEN).
      { pose proof (half_bounds (lower + MAX_LEN)) as Hb'.
        rewrite <- Hhalf' in Hb'. lia. }
      assert (Hvr : (v < r)%N) by (apply (Hbelow idx); [lia | exact Hv]).
      rewrite Hit, Hmid.
      destruct (Z.leb_spec lower MAX_LEN); [|lia].
      unfold first_match. cbn [In find]. unfold holds at 1. rewrite Hv.
      destruct (N.eqb_spec v r); [lia|].
      repeat split; [exact Hrun | right; exact Hb | right; exact Hp | exact Hnone].
Qed.

Lemma initial_upper_overflow : initial_upper ary = MAX_LEN.
Proof. unfold initial_upper. rewrite Hlen. reflexivity. Qed.

Lemma overflow_run :
  binary_search ary r = Some (OutOfBounds (- MAX_LEN)) /\
  In (MAX_LEN, MAX_LEN) (bounds ary r) /\
  In (- MAX_LEN) (probes ary r) /\
  first_match ary r (probes ary r) = None.
Proof.
  unfold binary_search, bounds, probes, rounds.
  rewrite initial_upper_overflow.
  apply overflow_loop; [unfold MAX_LEN; lia|].
  change (2 ^ Z.of_nat 32) with 4294967296. unfold MAX_LEN. lia.
Qed.

End Long_arrays.

(** *** [long_ring]: [2^30 + 1] entries of value [0] *)

Lemma long_ring_length : RARRAY_LEN long_ring = 1073741825.
Proof. apply RARRAY_LEN_level. lia. Qed.

Lemma long_ring_below (i : Z) (v : N) :
  0 <= i < MAX_LEN -> value_at long_ring i = Some v -> (v < 1)%N.
Proof. intros _ Hv. apply value_at_level in Hv. lia. Qed.

Lemma long_ring_run :
  binary_search long_ring 1 = Some (OutOfBounds (-1073741824)) /\
  In (1073741824, 1073741824) (bounds long_ring 1) /\
  In (-1073741824) (probes long_ring 1) /\
  first_match long_ring 1 (probes long_ring 1) = None.
Proof. exact (overflow_run long_ring 1 long_ring_length long_ring_below). Qed.

(** The first read of a search for [0] is at the middle, and finds it. *)
Lemma long_ring_hit : binary_search long_ring 0 = Some (Returned 536870912).
Proof.
  unfold binary_search, rounds, initial_upper.
  rewrite long_ring_length, search_loop_unfold.
  change (to_int (1073741825 - 1)) with 1073741824.
  destruct (iteration_inside long_ring 0 0 1073741824)
    as (idx & v & Hidx & _ & _ & Hv & ->);
    try (rewrite ?long_ring_length; unfold INT_MAX; lia).
  apply value_at_level in Hv. subst v idx. reflexivity.
Qed.

(** *** [stepped_ring]: [2^30] entries of value [0], then a [1] *)

Lemma stepped_ring_length : RARRAY_LEN stepped_ring = 1073741825.
Proof.
  rewrite RARRAY_LEN_app, RARRAY_LEN_level by lia. reflexivity.
Qed.

Lemma stepped_ring_sorted : sorted stepped_ring.
Proof.
  unfold level. apply sorted_repeat_app.
  repeat constructor. unfold by_value. simpl. lia.
Qed.

Lemma stepped_ring_present : In 1%N (map value stepped_ring).
Proof.
  rewrite map_app. apply in_or_app. right. left. reflexivity.
Qed.

Lemma stepped_ring_below (i : Z) (v : N) :
  0 <= i < MAX_LEN -> value_at stepped_ring i = Some v -> (v < 1)%N.
Proof.
  intros Hi Hv. rewrite value_at_app_left in Hv.
  - apply value_at_level in Hv. lia.
  - rewrite RARRAY_LEN_level; unfold MAX_LEN in Hi; lia.
Qed.

Lemma stepped_ring_run :
  binary_search stepped_ring 1 = Some (OutOfBounds (-1073741824)) /\
  In (1073741824, 1073741824) (bounds stepped_ring 1) /\
  In (-1073741824) (probes stepped_ring 1) /\
  first_match stepped_ring 1 (probes stepped_ring 1) = None.
Proof. exact (overflow_run stepped_ring 1 stepped_ring_length stepped_ring_below). Qed.

(** *** [longer_ring]: [2^31 + 1] entries of value [1] *)

Lemma longer_ring_length : RARRAY_LEN longer_ring = 2147483649.
Proof. apply RARRAY_LEN_level. lia. Qed.

Lemma longer_ring_upper : initial_upper longer_ring = -2147483648.
Proof. unfold initial_upper. rewrite longer_ring_length. reflexivity. Qed.

Lemma longer_ring_run (q : N) :
  binary_search longer_ring q = Some (Returned (-2147483648)) /\
  probes longer_ring q = [].
Proof.
  rewrite <- longer_ring_upper. apply binary_search_narrowed.
  rewrite longer_ring_upper. lia.
Qed.

(** ** The properties of the search *)

(** Discharges [sorted] on an array written out in full. *)
Ltac sorted_by_evaluation :=
  unfold sorted, ring; simpl;
  repeat (constructor; unfold by_value; simpl; try lia).

(** *** On arrays of at most [2^30] entries *)

(** X1: on an array sorted by value, of at most [2^30] entries, and for a
    query equal to no entry, the search returns the index of the last entry
    whose value is strictly less than the query ([-1] when there is none);
    in particular a query strictly between the values at [i] and at [i + 1]
    yields [i]. *)
Theorem predecessor_on_miss {P : Type} (ary : list (Entry P)) (q : N) :
  sorted ary -> RARRAY_LEN ary <= MAX_LEN -> ~ In q (map value ary) ->
  binary_search ary q = Some (Returned (predecessor_index ary q)) /\
  (forall i vi vj,
     value_at ary i = Some vi -> value_at ary (i + 1) = Some vj ->
     (vi < q < vj)%N -> binary_search ary q = Some (Returned i)).
Proof.
  intros Hs Hlen Hout.
  destruct (binary_search_absent ary q Hs Hlen Hout) as (p & Hrun & Hsep).
  split.
  - rewrite (separates_predecessor ary q p Hsep). exact Hrun.
  - intros i vi vj Hi Hj [Hlo Hhi].
    destruct Hsep as (_ & Hlow & Hhigh).
    assert (i = p); [|subst; exact Hrun].
    destruct (Z_lt_ge_dec p i) as [Hlt|Hge].
    + specialize (Hhigh i vi Hlt Hi). lia.
    + destruct (Z.eq_dec i p) as [Heq|Hne]; [exact Heq|].
      specialize (Hlow (i + 1) vj ltac:(lia) Hj). lia.
Qed.

Lemma predecessor_on_miss_witness :
  binary_search (ring [10; 20; 30; 40]%N) 25 =
    Some (Returned (predecessor_index (ring [10; 20; 30; 40]%N) 25)) /\
  binary_search (ring [10; 20; 30; 40]%N) 25 = Some (Returned 1).
Proof.
  destruct (predecessor_on_miss (ring [10; 20; 30; 40]%N) 25) as [Hpred Hadj].
  - sorted_by_evaluation.
  - unfold RARRAY_LEN, MAX_LEN. simpl. lia.
  - simpl. intros [H|[H|[H|[H|[]]]]]; discriminate H.
  - split; [exact Hpred|].
    apply (Hadj 1 20%N 30%N); [reflexivity | reflexivity | lia].
Defined.

(** X2: on an array sorted by value, of at most [2^30] entries, a query
    equal to some entry's value makes the search return an index whose entry has that
    value. *)
Theorem found_when_present {P : Type} (ary : list (Entry P)) (q : N) :
  sorted ary -> RARRAY_LEN ary <= MAX_LEN -> In q (map value ary) ->
  exists i, binary_search ary q = Some (Returned i) /\ value_at ary i = Some q.
Proof.
  intros Hs Hlen Hin.
  apply present_value_at in Hin. destruct Hin as [j Hj].
  destruct (binary_search_sorted ary q Hs Hlen) as (i & Hrun & [Hfound|Hsep]).
  - exists i. split; assumption.
  - exfalso. exact (separates_absent ary q i j Hsep Hj).
Qed.

(** X3: on a non-empty array sorted by value, a query strictly smaller than
    the first value yields [-1] when the array has at most [2^31] entries, and a
    query strictly larger than the last value yields the last index when the
    array has at most [2^30] entries. *)
Theorem outside_the_ends {P : Type} (ary : list (Entry P)) (q : N) :
  sorted ary -> ary <> [] ->
  (RARRAY_LEN ary <= 2 * MAX_LEN ->
   forall v, value_at ary 0 = Some v -> (q < v)%N ->
   binary_search ary q = Some (Returned (-1))) /\
  (RARRAY_LEN ary <= MAX_LEN ->
   forall v, value_at ary (RARRAY_LEN ary - 1) = Some v -> (v < q)%N ->
   binary_search ary q = Some (Returned (RARRAY_LEN ary - 1))).
Proof.
  intros Hs _. split.
  - intros Hlen v Hv Hqv.
    apply binary_search_descent; [exact Hlen|].
    intros j w Hw. pose proof (value_at_some _ _ _ Hw) as Hj.
    pose proof (sorted_value_at ary Hs 0 j v w ltac:(lia) Hv Hw). lia.
  - intros Hlen v Hv Hvq.
    pose proof (value_at_some _ _ _ Hv) as Hn.
    destruct (binary_search_sorted ary q Hs Hlen)
      as (i & Hrun & [Hfound|(Hi & Hlow & Hhigh)]).
    + pose proof (value_at_some _ _ _ Hfound) as Hi.
      pose proof (sorted_value_at ary Hs i (RARRAY_LEN ary - 1) q v
                    ltac:(lia) Hfound Hv). lia.
    + assert (i = RARRAY_LEN ary - 1); [|subst; exact Hrun].
      destruct (Z.eq_dec i (RARRAY_LEN ary - 1)) as [Heq|Hne]; [exact Heq|].
      specialize (Hhigh (RARRAY_LEN ary - 1) v ltac:(lia) Hv). lia.
Qed.

Lemma outside_the_ends_witness :
  binary_search (ring [10; 20; 30; 40]%N) 5 = Some (Returned (-1)) /\
  binary_search (ring [10; 20; 30; 40]%N) 99 = Some (Returned 3).
Proof.
  assert (Hs : sorted (ring [10; 20; 30; 40]%N)) by sorted_by_evaluation.
  assert (Hne : ring [10; 20; 30; 40]%N <> []) by discriminate.
  split.
  - apply (proj1 (outside_the_ends (ring [10; 20; 30; 40]%N) 5 Hs Hne)) with (v := 10%N).
    + unfold RARRAY_LEN, MAX_LEN. simpl. lia.
    + reflexivity.
    + lia.
  - apply (proj2 (outside_the_ends (ring [10; 20; 30; 40]%N) 99 Hs Hne)) with (v := 40%N).
    + unfold RARRAY_LEN, MAX_LEN. simpl. lia.
    + reflexivity.
    + lia.
Defined.

(** *** The claims of the specification *)

(** C1, at the failing inputs.  On [2^30 + 1] entries of value [0] and the
    query [1] the predecessor index is [2^30], and the search reads the array
    at [-2^30] instead of returning; on [2^31 + 1] entries of value [1] and
    the query [2] the predecessor index is [2^31], and [-2^31] is returned. *)
Theorem long_arrays_miss :
  (sorted long_ring /\ ~ In 1%N (map value long_ring) /\
   predecessor_index long_ring 1 = 1073741824 /\
   binary_search long_ring 1 = Some (OutOfBounds (-1073741824))) /\
  (sorted longer_ring /\ ~ In 2%N (map value longer_ring) /\
   predecessor_index longer_ring 2 = 2147483648 /\
   binary_search longer_ring 2 = Some (Returned (-2147483648))).
Proof.
  refine (conj (conj _ (conj _ (conj _ _))) (conj _ (conj _ (conj _ _)))).
  - apply sorted_level.
  - apply absent_level. discriminate.
  - rewrite predecessor_level by lia. reflexivity.
  - exact (proj1 long_ring_run).
  - apply sorted_level.
  - apply absent_level. discriminate.
  - rewrite predecessor_level by lia. reflexivity.
  - exact (proj1 (longer_ring_run 2)).
Qed.

(** C2, at the failing inputs.  On [2^30] entries of value [0] followed by
    one of value [1], the query [1] equals an entry, and the search reads the
    array at [-2^30] instead of returning; on [2^31 + 1] entries of value [1]
    the query [1] equals every entry, and [-2^31], no index of the array, is
    returned. *)
Theorem long_arrays_hit :
  (sorted stepped_ring /\ In 1%N (map value stepped_ring) /\
   binary_search stepped_ring 1 = Some (OutOfBounds (-1073741824))) /\
  (sorted longer_ring /\ In 1%N (map value longer_ring) /\
   binary_search longer_ring 1 = Some (Returned (-2147483648)) /\
   value_at longer_ring (-2147483648) = None).
Proof.
  refine (conj (conj _ (conj _ _)) (conj _ (conj _ (conj _ _)))).
  - exact stepped_ring_sorted.
  - exact stepped_ring_present.
  - exact (proj1 stepped_ring_run).
  - apply sorted_level.
  - apply present_level. lia.
  - exact (proj1 (longer_ring_run 1)).
  - apply value_at_negative. lia.
Qed.

(** C3: on the empty array the search returns [-1], whatever the query; it
    is a return value like any other. *)
Theorem empty_sequence {P : Type} (q : N) :
  binary_search (@nil (Entry P)) q = Some (Returned (-1)).
Proof.
  unfold binary_search, rounds, initial_upper.
  rewrite search_loop_unfold.
  change (to_int (RARRAY_LEN (@nil (Entry P)) - 1)) with (-1).
  rewrite iteration_done by lia. reflexivity.
Qed.

Lemma empty_sequence_reads {P : Type} (q : N) : probes (@nil (Entry P)) q = [].
Proof. reflexivity. Qed.

(** C4, at the failing inputs.  On [2^30 + 1] entries of value [0] the query
    [1] is larger than the last value, and the search reads the array at
    [-2^30] instead of returning the last index [2^30]; on [2^31 + 1] entries
    of value [1] the query [0] is smaller than the first value, and [-2^31]
    is returned instead of [-1]. *)
Theorem long_arrays_ends :
  (sorted long_ring /\ long_ring <> [] /\
   value_at long_ring (RARRAY_LEN long_ring - 1) = Some 0%N /\ (0 < 1)%N /\
   binary_search long_ring 1 = Some (OutOfBounds (-1073741824))) /\
  (sorted longer_ring /\ longer_ring <> [] /\
   value_at longer_ring 0 = Some 1%N /\ (0 < 1)%N /\
   binary_search longer_ring 0 = Some (Returned (-2147483648))).
Proof.
  refine (conj (conj _ (conj _ (conj _ (conj _ _))))
               (conj _ (conj _ (conj _ (conj _ _))))).
  - apply sorted_level.
  - apply level_not_empty. lia.
  - rewrite long_ring_length. apply value_at_level_inside. lia.
  - lia.
  - exact (proj1 long_ring_run).
  - apply sorted_level.
  - apply level_not_empty. lia.
  - apply value_at_level_inside. lia.
  - lia.
  - exact (proj1 (longer_ring_run 0)).
Qed.

(** C5, at the failing inputs.  On [2^30 + 1] entries no integer is
    returned; on [2^31 + 1] entries the integer returned is [-2^31], below
    [-1]. *)
Theorem long_arrays_range :
  (RARRAY_LEN long_ring = 1073741825 /\
   binary_search long_ring 1 = Some (OutOfBounds (-1073741824))) /\
  (RARRAY_LEN longer_ring = 2147483649 /\
   binary_search longer_ring 0 = Some (Returned (-2147483648)) /\
   -2147483648 < -1).
Proof.
  refine (conj (conj _ _) (conj _ (conj _ _))).
  - exact long_ring_length.
  - exact (proj1 long_ring_run).
  - exact longer_ring_length.
  - exact (proj1 (longer_ring_run 0)).
  - lia.
Qed.

(** C6, at the failing input: the array of [2^30 + 1] entries of value [0],
    searched for [1].  The loop reaches [lower = upper = 2^30]; the sum
    [2^31] does not fit the [int] it is computed in, and the midpoint comes
    out as [-2^30] where the floor of the half sum is [2^30]. *)
Theorem long_ring_midpoint :
  RARRAY_LEN long_ring = 1073741825 /\
  In (1073741824, 1073741824) (bounds long_ring 1) /\
  INT_MAX < 1073741824 + 1073741824 /\
  midpoint 1073741824 1073741824 = -1073741824 /\
  (1073741824 + 1073741824) / 2 = 1073741824.
Proof.
  refine (conj _ (conj _ (conj _ (conj _ _)))).
  - exact long_ring_length.
  - exact (proj1 (proj2 long_ring_run)).
  - unfold INT_MAX. lia.
  - reflexivity.
  - reflexivity.
Qed.

(** C7, at the failing inputs.  On [2^30] entries of value [0] followed by
    one of value [1], sorted, the query [1] equals an entry; the probe path
    meets no index that holds it before the array is read at [-2^30], and
    nothing is returned.  On [2^31 + 1] entries of value [1] the query [1]
    equals every entry; no index is probed at all and [-2^31] is returned. *)
Theorem long_arrays_first_match :
  (sorted stepped_ring /\ In 1%N (map value stepped_ring) /\
   first_match stepped_ring 1 (probes stepped_ring 1) = None /\
   In (-1073741824) (probes stepped_ring 1) /\
   binary_search stepped_ring 1 = Some (OutOfBounds (-1073741824))) /\
  (sorted longer_ring /\ In 1%N (map value longer_ring) /\
   probes longer_ring 1 = [] /\
   binary_search longer_ring 1 = Some (Returned (-2147483648))).
Proof.
  refine (conj (conj _ (conj _ (conj _ (conj _ _))))
               (conj _ (conj _ (conj _ _)))).
  - exact stepped_ring_sorted.
  - exact stepped_ring_present.
  - exact (proj2 (proj2 (proj2 stepped_ring_run))).
  - exact (proj1 (proj2 (proj2 stepped_ring_run))).
  - exact (proj1 stepped_ring_run).
  - apply sorted_level.
  - apply present_level. lia.
  - exact (proj2 (longer_ring_run 1)).
  - exact (proj1 (longer_ring_run 1)).
Qed.

(** With duplicates of the query the index returned need not be the lowest
    one that holds it: on [5, 5, 5] the first probe, at index [1], is
    returned. *)
Example duplicates_not_lowest :
  sorted (ring [5; 5; 5]%N) /\
  binary_search (ring [5; 5; 5]%N) 5 = Some (Returned 1) /\
  first_match (ring [5; 5; 5]%N) 5 (probes (ring [5; 5; 5]%N) 5) = Some 1 /\
  value_at (ring [5; 5; 5]%N) 0 = Some 5%N.
Proof.
  split; [sorted_by_evaluation|].
  split; [reflexivity|]. split; reflexivity.
Qed.

Lemma long_ring_iteration :
  iteration long_ring 1 1073741824 1073741824 = Exit (OutOfBounds (-1073741824)).
Proof. exact (overflow_iteration long_ring 1). Qed.

(** C8, at the failing input: the array of [2^30 + 1] entries of value [0],
    searched for [1].  The round at [lower = upper = 2^30] neither returns
    nor shrinks the interval: it reads the array at [-2^30], and the call
    has no return value. *)
Theorem long_ring_round :
  In (1073741824, 1073741824) (bounds long_ring 1) /\
  iteration long_ring 1 1073741824 1073741824 = Exit (OutOfBounds (-1073741824)) /\
  ~ returns_or_shrinks long_ring 1 (1073741824, 1073741824) /\
  binary_search long_ring 1 = Some (OutOfBounds (-1073741824)).
Proof.
  refine (conj _ (conj _ (conj _ _))).
  - exact (proj1 (proj2 long_ring_run)).
  - exact long_ring_iteration.
  - unfold returns_or_shrinks. cbn [fst snd].
    rewrite long_ring_iteration. intros H. exact H.
  - exact (proj1 long_ring_run).
Qed.

(** C9, at the failing input: the array of [2^30 + 1] entries of value [0],
    searched for [1], is read at index [-2^30], before its first entry. *)
Theorem long_ring_read :
  RARRAY_LEN long_ring = 1073741825 /\
  In (-1073741824) (probes long_ring 1) /\
  RARRAY_PTR long_ring (-1073741824) = None.
Proof.
  refine (conj _ (conj _ _)).
  - exact long_ring_length.
  - exact (proj1 (proj2 (proj2 long_ring_run))).
  - apply RARRAY_PTR_negative. lia.
Qed.

(** C10, at the failing input: on the sorted array of [2^30 + 1] entries of
    value [0], the query [0] is answered with index [2^29], and the larger
    query [1] with no index at all. *)
Theorem long_ring_queries :
  sorted long_ring /\ (0 <= 1)%N /\
  binary_search long_ring 0 = Some (Returned 536870912) /\
  binary_search long_ring 1 = Some (OutOfBounds (-1073741824)).
Proof.
  refine (conj _ (conj _ (conj _ _))).
  - apply sorted_level.
  - lia.
  - exact long_ring_hit.
  - exact (proj1 long_ring_run).
Qed.

(** ** More on the C function *)

(** *** The number of reads *)

Section Reads.

Context {P : Type}.
Variables (ary : list (Entry P)) (q : N).

Lemma probe_trace_short (m : nat) : forall (k : nat) lower upper,
  plausible lower upper ->
  upper - lower + 1 < 2 ^ Z.of_nat m ->
  (length (probe_trace k ary q lower upper) <= m)%nat.
Proof.
  induction m as [|m IH]; intros k lower upper Hp Hsize;
    destruct k as [|k]; try (simpl; lia);
    rewrite probe_trace_unfold;
    destruct (Z.leb_spec lower upper) as [Hle|Hgt]; try (simpl; lia).
  pose proof (iteration_halves ary q lower upper Hp) as Hstep.
  destruct (iteration ary q lower upper) as [o|lower' upper']; [simpl; lia|].
  destruct Hstep as (Hp' & _ & Hhalf).
  cbn [length]. apply le_n_S. apply IH; [exact Hp'|].
  rewrite Nat2Z.inj_succ, Z.pow_succ_r in Hsize by lia. lia.
Qed.

Lemma initial_upper_le : initial_upper ary <= RARRAY_LEN ary - 1.
Proof.
  unfold initial_upper. pose proof (RARRAY_LEN_nonneg ary).
  destruct (Z_le_gt_dec (RARRAY_LEN ary - 1) INT_MAX) as [Hfit|Hover].
  - rewrite to_int_small; [lia | unfold INT_MIN, INT_MAX in *; lia].
  - pose proof (to_int_range (RARRAY_LEN ary - 1)). lia.
Qed.

(** X8: an array of fewer than [2^m] entries, sorted or not and of any
    length, is read at most [m] times by one call: the number of comparisons
    is logarithmic in the length. *)
Theorem probes_logarithmic (m : nat) :
  RARRAY_LEN ary < 2 ^ Z.of_nat m -> (length (probes ary q) <= m)%nat.
Proof.
  intros Hlen. unfold probes.
  apply probe_trace_short; [apply initial_plausible|].
  pose proof initial_upper_le. lia.
Qed.

(** *** Arrays whose last index is no [int] *)

(** X12: on an array of more than [2^31] and at most [2^32] entries, whatever
    it holds, the last index stored into [upper] is negative: nothing is
    read, and [n - 1 - 2^32] is returned. *)
Theorem negative_upper_returned :
  2 * MAX_LEN < RARRAY_LEN ary <= 4 * MAX_LEN ->
  binary_search ary q = Some (Returned (RARRAY_LEN ary - 1 - 4294967296)) /\
  probes ary q = [].
Proof.
  unfold MAX_LEN. intros Hlen.
  assert (Hup : initial_upper ary = RARRAY_LEN ary - 1 - 4294967296)
    by (unfold initial_upper; apply to_int_high; unfold INT_MAX; lia).
  rewrite <- Hup. apply binary_search_narrowed. lia.
Qed.

(** *** Arrays on which the sum of the bounds overflows *)

Hypothesis Hlen : MAX_LEN < RARRAY_LEN ary <= 2 * MAX_LEN.
Hypothesis Habove : forall i v, value_at ary i = Some v -> (v < q)%N.

Lemma climb_to_overflow (k : nat) : forall lower,
  0 <= lower <= RARRAY_LEN ary - 1 ->
  RARRAY_LEN ary - 1 - lower + 1 < 2 ^ Z.of_nat k ->
  exists idx, idx < 0 /\
    search_loop (S k) ary q lower (RARRAY_LEN ary - 1) = Some (OutOfBounds idx) /\
    In idx (probe_trace (S k) ary q lower (RARRAY_LEN ary - 1)).
Proof.
  unfold MAX_LEN in Hlen.
  induction k as [|k IH]; intros lower Hl Hsize;
    rewrite search_loop_unfold, probe_trace_unfold;
    (destruct (Z.leb_spec lower (RARRAY_LEN ary - 1)) as [Hle|]; [|lia]);
    destruct (Z_le_gt_dec (lower + (RARRAY_LEN ary - 1)) INT_MAX) as [Hfit|Hover].
  - change (2 ^ Z.of_nat 0) with 1 in Hsize. lia.
  - exists (midpoint lower (RARRAY_LEN ary - 1)).
    assert (Hneg : midpoint lower (RARRAY_LEN ary - 1) < 0)
      by (apply midpoint_overflow; unfold INT_MAX in *; lia).
    unfold iteration. destruct (Z.leb_spec lower (RARRAY_LEN ary - 1)); [|lia].
    cbv zeta. rewrite RARRAY_PTR_negative by exact Hneg.
    split; [exact Hneg|]. split; [reflexivity | left; reflexivity].
  - destruct (iteration_inside ary q lower (RARRAY_LEN ary - 1))
      as (idx & v & Hidx & _ & Hin & Hv & ->); try lia.
    pose proof (half_bounds (lower + (RARRAY_LEN ary - 1))) as Hhalf.
    rewrite <- Hidx in Hhalf. unfold INT_MAX in Hfit.
    specialize (Habove idx v Hv).
    destruct (N.eqb_spec v q); [lia|].
    destruct (N.ltb_spec q v); [lia|].
    destruct (IH (idx + 1)) as (bad & Hbad & Hrun & Hp); [lia | |].
    { rewrite Nat2Z.inj_succ, Z.pow_succ_r in Hsize by lia. lia. }
    exists bad. split; [exact Hbad|]. split; [exact Hrun | right; exact Hp].
  - exists (midpoint lower (RARRAY_LEN ary - 1)).
    assert (Hneg : midpoint lower (RARRAY_LEN ary - 1) < 0)
      by (apply midpoint_overflow; unfold INT_MAX in *; lia).
    unfold iteration. destruct (Z.leb_spec lower (RARRAY_LEN ary - 1)); [|lia].
    cbv zeta. rewrite RARRAY_PTR_negative by exact Hneg.
    split; [exact Hneg|]. split; [reflexivity | left; reflexivity].
Qed.

(** X13: on an array of more than [2^30] and at most [2^31] entries, a
    number above every value makes [lower] climb until [lower + upper]
    leaves the [int] range: the call reads the array at a negative index and
    returns nothing. *)
Theorem overflow_above :
  exists idx, idx < 0 /\
    binary_search ary q = Some (OutOfBounds idx) /\ In idx (probes ary q).
Proof.
  assert (Hup : initial_upper ary = RARRAY_LEN ary - 1).
  { unfold initial_upper. apply to_int_small.
    unfold INT_MIN, INT_MAX, MAX_LEN in *. lia. }
  unfold binary_search, probes, rounds. rewrite Hup.
  apply climb_to_overflow; [unfold MAX_LEN in *; lia|].
  change (2 ^ Z.of_nat 32) with 4294967296. unfold MAX_LEN in *. lia.
Qed.

End Reads.

(** ** The Ruby method of the comment *)

Section Reference.

Context {P : Type}.
Variables (ary : list (Entry P)) (q : N).

Lemma ruby_at_inside idx : 0 <= idx -> ruby_at ary idx = RARRAY_PTR ary idx.
Proof.
  intros Hidx. unfold ruby_at, RARRAY_PTR.
  destruct (Z.ltb_spec idx 0) as [Hneg|_]; [lia|]. cbv zeta.
  destruct (Z.ltb_spec idx 0); [lia | reflexivity].
Qed.

Lemma ruby_loop_unfold fuel lower upper :
  ruby_loop (S fuel) ary q lower upper =
  match ruby_iteration ary q lower upper with
  | Done o => Some o
  | Again lower' upper' => ruby_loop fuel ary q lower' upper'
  end.
Proof. reflexivity. Qed.

Lemma ruby_iteration_done lower upper :
  upper < lower -> ruby_iteration ary q lower upper = Done (Result upper).
Proof.
  intros Hlt. unfold ruby_iteration.
  destruct (Z.leb_spec lower upper); [lia | reflexivity].
Qed.

(** A round on bounds inside the array, of any length: the index is between
    the bounds, the entry is there, and the comparison decides. *)
Lemma ruby_iteration_inside lower upper :
  inside_inv ary lower upper -> lower <= upper ->
  exists idx v,
    idx = (lower + upper) / 2 /\ lower <= idx <= upper /\
    value_at ary idx = Some v /\
    ruby_iteration ary q lower upper =
      match (v ?= q)%N with
      | Eq => Done (Result idx)
      | Gt => Again lower (idx - 1)
      | Lt => Again (idx + 1) upper
      end.
Proof.
  intros (Hl & Hu & Hlu) Hle.
  pose proof (half_bounds (lower + upper)) as Hhalf.
  assert (Hidx : lower <= (lower + upper) / 2 <= upper) by lia.
  destruct (RARRAY_PTR_inside ary ((lower + upper) / 2)) as [e He]; [lia|].
  exists ((lower + upper) / 2), (value e).
  split; [reflexivity|]. split; [exact Hidx|]. split.
  - unfold value_at. now rewrite He.
  - unfold ruby_iteration. destruct (Z.leb_spec lower upper); [|lia].
    cbv zeta. rewrite ruby_at_inside by lia. rewrite He. reflexivity.
Qed.

(** *** Reasoning about its loop with an invariant *)

Section Reference_rules.

Variable Inv : Z -> Z -> Prop.
Variable Post : ruby_outcome -> Prop.

Hypothesis Inv_inside :
  forall lower upper, Inv lower upper -> inside_inv ary lower upper.

Hypothesis Inv_step :
  forall lower upper, Inv lower upper ->
  match ruby_iteration ary q lower upper with
  | Done o => Post o
  | Again lower' upper' => Inv lower' upper'
  end.

Lemma ruby_loop_rule (k : nat) : forall lower upper,
  Inv lower upper ->
  upper - lower + 1 < Z.of_nat k ->
  exists o, ruby_loop k ary q lower upper = Some o /\ Post o.
Proof.
  induction k as [|k IH]; intros lower upper HI Hsize.
  - destruct (Inv_inside _ _ HI) as (_ & _ & Hlu). lia.
  - rewrite ruby_loop_unfold.
    pose proof (Inv_step lower upper HI) as Hstep.
    destruct (Z_le_gt_dec lower upper) as [Hle|Hgt].
    + destruct (ruby_iteration_inside lower upper (Inv_inside _ _ HI) Hle)
        as (idx & v & _ & Hidx & _ & Heq).
      rewrite Heq in *.
      destruct (v ?= q)%N; eauto; apply IH; auto; lia.
    + rewrite ruby_iteration_done in * by lia. eauto.
Qed.

Lemma ruby_binary_search_rule :
  Inv 0 (RARRAY_LEN ary - 1) ->
  exists o, ruby_binary_search ary q = Some o /\ Post o.
Proof.
  intros HI. unfold ruby_binary_search.
  apply ruby_loop_rule; [exact HI|].
  unfold RARRAY_LEN. lia.
Qed.

End Reference_rules.

Lemma inside_inv_whole : inside_inv ary 0 (RARRAY_LEN ary - 1).
Proof. pose proof (RARRAY_LEN_nonneg ary). unfold inside_inv. lia. Qed.

Lemma ruby_inside_step lower upper :
  inside_inv ary lower upper ->
  match ruby_iteration ary q lower upper with
  | Done o => exists i, o = Result i /\ -1 <= i <= RARRAY_LEN ary - 1
  | Again lower' upper' => inside_inv ary lower' upper'
  end.
Proof.
  intros HI. pose proof HI as (Hl & Hu & Hlu).
  destruct (Z_le_gt_dec lower upper) as [Hle|Hgt].
  - destruct (ruby_iteration_inside lower upper HI Hle)
      as (idx & v & _ & Hidx & _ & ->).
    destruct (v ?= q)%N; [exists idx; split; [reflexivity | lia] | |];
      unfold inside_inv; lia.
  - rewrite ruby_iteration_done by lia. exists upper. split; [reflexivity | lia].
Qed.

(** X14: on every array, sorted or not and of any length, the Ruby method
    returns an integer between [-1] and the last index; it never sends
    [value] to [nil], and [ary.size + 1] evaluations of its loop condition
    are enough. *)
Theorem ruby_binary_search_safe :
  exists i, ruby_binary_search ary q = Some (Result i) /\
            -1 <= i <= RARRAY_LEN ary - 1.
Proof.
  destruct (ruby_binary_search_rule (inside_inv ary)
              (fun o => exists i, o = Result i /\ -1 <= i <= RARRAY_LEN ary - 1))
    as (o & Hrun & i & -> & Hi).
  - auto.
  - exact ruby_inside_step.
  - exact inside_inv_whole.
  - exists i. split; [exact Hrun | exact Hi].
Qed.

(** *** The C function against the Ruby method *)

Lemma loops_agree :
  RARRAY_LEN ary <= MAX_LEN ->
  forall (k k' : nat) lower upper i o,
  inside_inv ary lower upper ->
  search_loop k ary q lower upper = Some (Returned i) ->
  ruby_loop k' ary q lower upper = Some o ->
  o = Result i.
Proof.
  intros Hshort.
  induction k as [|k IH]; intros k' lower upper i o HI Hc Hr; [discriminate|].
  destruct k' as [|k']; [discriminate|].
  rewrite search_loop_unfold in Hc. rewrite ruby_loop_unfold in Hr.
  pose proof HI as (Hl & Hu & Hlu).
  destruct (Z_le_gt_dec lower upper) as [Hle|Hgt].
  - destruct (inside_iteration ary q Hshort lower upper HI Hle)
      as (idx & v & Hidx & _ & Hin & Hv & Hceq).
    destruct (ruby_iteration_inside lower upper HI Hle)
      as (idx' & v' & Hidx' & _ & Hv' & Hreq).
    subst idx'. rewrite <- Hidx in *.
    assert (v' = v) by congruence. subst v'.
    rewrite Hceq in Hc. rewrite Hreq in Hr.
    destruct (N.compare_spec v q) as [Heq|Hlt|Hgt'].
    + subst v. rewrite N.eqb_refl in Hc. congruence.
    + destruct (N.eqb_spec v q); [lia|].
      destruct (N.ltb_spec q v); [lia|].
      apply (IH k' (idx + 1) upper); auto. unfold inside_inv. lia.
    + destruct (N.eqb_spec v q); [lia|].
      destruct (N.ltb_spec q v); [|lia].
      apply (IH k' lower (idx - 1)); auto. unfold inside_inv. lia.
  - rewrite iteration_done in Hc by lia.
    rewrite ruby_iteration_done in Hr by lia. congruence.
Qed.

(** X15: on an array of at most [2^30] entries, sorted or not, the C
    function returns the integer that the Ruby method of the comment
    returns. *)
Theorem agrees_with_reference :
  RARRAY_LEN ary <= MAX_LEN ->
  exists i, binary_search ary q = Some (Returned i) /\
            ruby_binary_search ary q = Some (Result i).
Proof.
  intros Hshort.
  destruct (binary_search_rule ary q (inside_inv ary) (inside_post ary))
    as (o & Hc & i & -> & _).
  - exact (inside_inv_plausible ary Hshort).
  - exact (inside_inv_step ary q Hshort).
  - exact (inside_inv_initial ary Hshort).
  - destruct (ruby_binary_search_rule (inside_inv ary)
                (fun o => exists j, o = Result j /\ -1 <= j <= RARRAY_LEN ary - 1))
      as (o & Hr & j & -> & _);
      [auto | exact ruby_inside_step | exact inside_inv_whole |].
    exists i. split; [exact Hc|]. rewrite Hr. f_equal.
    unfold binary_search in Hc. unfold ruby_binary_search in Hr.
    rewrite (initial_upper_short ary Hshort) in Hc.
    exact (loops_agree Hshort _ _ _ _ _ _ inside_inv_whole Hc Hr).
Qed.

(** *** The Ruby method on a sorted array *)

Hypothesis Hsorted : sorted ary.

Lemma ruby_sorted_step lower upper :
  sorted_inv ary q lower upper ->
  match ruby_iteration ary q lower upper with
  | Done o => exists i, o = Result i /\
                        (value_at ary i = Some q \/ separates ary q i)
  | Again lower' upper' => sorted_inv ary q lower' upper'
  end.
Proof.
  intros (HI & Hlow & Hhigh). pose proof HI as (Hl & Hu & Hlu).
  destruct (Z_le_gt_dec lower upper) as [Hle|Hgt].
  - destruct (ruby_iteration_inside lower upper HI Hle)
      as (idx & v & _ & Hidx & Hv & ->).
    destruct (N.compare_spec v q) as [->|Hvq|Hqv].
    + exists idx. auto.
    + repeat split; try lia; auto.
      intros j vj Hj Hvj.
      pose proof (sorted_value_at ary Hsorted j idx vj v) as Hmono.
      specialize (Hmono ltac:(lia) Hvj Hv). lia.
    + repeat split; try lia; auto.
      intros j vj Hj Hvj.
      pose proof (sorted_value_at ary Hsorted idx j v vj) as Hmono.
      specialize (Hmono ltac:(lia) Hv Hvj). lia.
  - rewrite ruby_iteration_done by lia.
    exists upper. split; [reflexivity|]. right.
    repeat split; try lia; auto.
    intros j v Hj. apply Hlow. lia.
Qed.

(** X16: on a sorted array of any length the Ruby method returns an index
    that holds the number when some entry equals it, and the index of the
    last entry below the number ([-1] when there is none) otherwise. *)
Theorem ruby_binary_search_sorted :
  exists i, ruby_binary_search ary q = Some (Result i) /\
            (In q (map value ary) -> value_at ary i = Some q) /\
            (~ In q (map value ary) -> i = predecessor_index ary q).
Proof.
  destruct (ruby_binary_search_rule (sorted_inv ary q)
              (fun o => exists i, o = Result i /\
                          (value_at ary i = Some q \/ separates ary q i)))
    as (o & Hrun & i & -> & Hres).
  - intros lower upper (HI & _). exact HI.
  - exact ruby_sorted_step.
  - split; [exact inside_inv_whole|].
    split; intros j v Hj Hv; apply value_at_some in Hv; lia.
  - exists i. split; [exact Hrun|]. split.
    + intros Hin. destruct Hres as [Hfound|Hsep]; [exact Hfound|].
      apply present_value_at in Hin. destruct Hin as [j Hj].
      exfalso. exact (separates_absent ary q i j Hsep Hj).
    + intros Hout. destruct Hres as [Hfound|Hsep].
      * exfalso. apply Hout. apply present_value_at. exists i. exact Hfound.
      * symmetry. exact (separates_predecessor ary q i Hsep).
Qed.

End Reference.

(** ** The properties above at concrete arrays *)

Lemma found_when_present_witness :
  exists i, binary_search (ring [10; 20; 30; 40]%N) 30 = Some (Returned i) /\
            value_at (ring [10; 20; 30; 40]%N) i = Some 30%N.
Proof.
  apply (found_when_present (ring [10; 20; 30; 40]%N) 30).
  - sorted_by_evaluation.
  - unfold RARRAY_LEN, MAX_LEN. simpl. lia.
  - simpl. right. right. left. reflexivity.
Defined.

Lemma binary_search_inside_witness :
  exists i, binary_search (ring [40; 10; 30; 20]%N) 20 = Some (Returned i) /\
            -1 <= i <= RARRAY_LEN (ring [40; 10; 30; 20]%N) - 1.
Proof.
  apply (binary_search_inside (ring [40; 10; 30; 20]%N) 20).
  unfold RARRAY_LEN, MAX_LEN. simpl. lia.
Defined.

Lemma probes_inside_witness :
  Forall (fun idx => 0 <= idx <= RARRAY_LEN (ring [40; 10; 30; 20]%N) - 1)
         (probes (ring [40; 10; 30; 20]%N) 20).
Proof.
  apply (probes_inside (ring [40; 10; 30; 20]%N) 20).
  unfold RARRAY_LEN, MAX_LEN. simpl. lia.
Defined.

Lemma midpoints_exact_witness :
  Forall (fun b => fst b <= snd b ->
                   fst b + snd b <= INT_MAX /\
                   midpoint (fst b) (snd b) = (fst b + snd b) / 2)
         (bounds (ring [10; 20; 30; 40]%N) 25).
Proof.
  apply (midpoints_exact (ring [10; 20; 30; 40]%N) 25).
  unfold RARRAY_LEN, MAX_LEN. simpl. lia.
Defined.

Lemma rounds_return_or_shrink_witness :
  Forall (returns_or_shrinks (ring [40; 10; 30; 20]%N) 20)
         (bounds (ring [40; 10; 30; 20]%N) 20).
Proof.
  apply (rounds_return_or_shrink (ring [40; 10; 30; 20]%N) 20).
  unfold RARRAY_LEN, MAX_LEN. simpl. lia.
Defined.

Lemma probes_logarithmic_witness :
  (length (probes (ring [10; 20; 30; 40; 50; 60; 70]%N) 65) <= 3)%nat.
Proof.
  apply (probes_logarithmic (ring [10; 20; 30; 40; 50; 60; 70]%N) 65 3).
  unfold RARRAY_LEN. simpl. lia.
Defined.

Lemma binary_search_monotone_witness :
  exists i1 i2,
    binary_search (ring [10; 20; 30; 40]%N) 20 = Some (Returned i1) /\
    binary_search (ring [10; 20; 30; 40]%N) 25 = Some (Returned i2) /\ i1 <= i2.
Proof.
  apply (binary_search_monotone (ring [10; 20; 30; 40]%N) 20 25).
  - sorted_by_evaluation.
  - unfold RARRAY_LEN, MAX_LEN. simpl. lia.
  - lia.
Defined.

Lemma binary_search_first_match_witness :
  exists i, binary_search (ring [10; 20; 20; 20; 30]%N) 20 = Some (Returned i) /\
            first_match (ring [10; 20; 20; 20; 30]%N) 20
                        (probes (ring [10; 20; 20; 20; 30]%N) 20) = Some i.
Proof.
  apply (binary_search_first_match (ring [10; 20; 20; 20; 30]%N) 20).
  - sorted_by_evaluation.
  - unfold RARRAY_LEN, MAX_LEN. simpl. lia.
  - simpl. right. left. reflexivity.
Defined.

Lemma negative_upper_returned_witness :
  binary_search longer_ring 0 =
    Some (Returned (RARRAY_LEN longer_ring - 1 - 4294967296)) /\
  probes longer_ring 0 = [].
Proof.
  assert (Hlen : 2 * MAX_LEN < RARRAY_LEN longer_ring <= 4 * MAX_LEN)
    by (rewrite longer_ring_length; unfold MAX_LEN; lia).
  exact (negative_upper_returned longer_ring 0%N Hlen).
Defined.

Lemma overflow_above_witness :
  exists idx, idx < 0 /\
    binary_search long_ring 1 = Some (OutOfBounds idx) /\
    In idx (probes long_ring 1).
Proof.
  assert (Hlen : MAX_LEN < RARRAY_LEN long_ring <= 2 * MAX_LEN)
    by (rewrite long_ring_length; unfold MAX_LEN; lia).
  assert (Habove : forall i v, value_at long_ring i = Some v -> (v < 1)%N)
    by (intros i v Hv; apply value_at_level in Hv; lia).
  exact (overflow_above long_ring 1%N Hlen Habove).
Defined.

Lemma agrees_with_reference_witness :
  exists i, binary_search (ring [40; 10; 30; 20]%N) 20 = Some (Returned i) /\
            ruby_binary_search (ring [40; 10; 30; 20]%N) 20 = Some (Result i).
Proof.
  apply (agrees_with_reference (ring [40; 10; 30; 20]%N) 20).
  unfold RARRAY_LEN, MAX_LEN. simpl. lia.
Defined.

Lemma ruby_binary_search_sorted_witness :
  exists i, ruby_binary_search (ring [10; 20; 30; 40]%N) 25 = Some (Result i) /\
            (In 25%N (map value (ring [10; 20; 30; 40]%N)) ->
             value_at (ring [10; 20; 30; 40]%N) i = Some 25%N) /\
            (~ In 25%N (map value (ring [10; 20; 30; 40]%N)) ->
             i = predecessor_index (ring [10; 20; 30; 40]%N) 25).
Proof.
  apply (ruby_binary_search_sorted (ring [10; 20; 30; 40]%N) 25).
  sorted_by_evaluation.
Defined.
